(** * jupyter_server.utils: path mapping, version check, async bridge, deprecation

  A shallow embedding of [jupyter_server/utils.py] and the properties of
  its helpers.  Each Python function keeps its name; library functions it
  calls ([str.strip], [str.split], [posixpath.join], [LooseVersion],
  [asyncio], [warnings]) are modelled next to the function that uses them. *)

From Stdlib Require Import List String Ascii Bool Arith NArith ZArith Lia.
From stdpp Require Import base list.
Import ListNotations.

Local Open Scope list_scope.

(** Python [str] values that are taken apart character by character are
  lists of characters; literals are written [py "..."].  The characters
  are the code points below U+0100: a string that holds any other
  character is not a value of this type, and nothing is said about it. *)
Definition pystr := list ascii.

Definition py (s : string) : pystr := list_ascii_of_string s.

(* ===================================================================== *)
(** ** Python string methods used by the path helpers *)
(* ===================================================================== *)

Module PyStr.

Definition is_empty (s : pystr) : bool :=
  match s with [] => true | _ => false end.

(** [s.lstrip(c)] for a one-character argument. *)
Fixpoint lstrip (c : ascii) (s : pystr) : pystr :=
  match s with
  | [] => []
  | x :: s' => if Ascii.eqb x c then lstrip c s' else s
  end.

(** [s.rstrip(c)]: a character is dropped when it is [c] and everything
    after it has been dropped. *)
Fixpoint rstrip (c : ascii) (s : pystr) : pystr :=
  match s with
  | [] => []
  | x :: s' =>
      let r := rstrip c s' in
      if Ascii.eqb x c && is_empty r then [] else x :: r
  end.

(** [s.strip(c)] *)
Definition strip (c : ascii) (s : pystr) : pystr := rstrip c (lstrip c s).

(** [s.split(c)] with an explicit one-character separator: never returns
    the empty list, and keeps empty pieces. *)
Fixpoint split (c : ascii) (s : pystr) : list pystr :=
  match s with
  | [] => [[]]
  | x :: s' =>
      if Ascii.eqb x c then [] :: split c s'
      else match split c s' with
           | p :: ps => (x :: p) :: ps
           | [] => [[x]]
           end
  end.

(** [c.join(parts)] *)
Fixpoint join (c : pystr) (parts : list pystr) : pystr :=
  match parts with
  | [] => []
  | [p] => p
  | p :: ps => p ++ c ++ join c ps
  end.

(** [s.startswith(pre)] *)
Fixpoint startswith (s pre : pystr) {struct pre} : bool :=
  match pre, s with
  | [], _ => true
  | _ :: _, [] => false
  | b :: pre', a :: s' => Ascii.eqb a b && startswith s' pre'
  end.

(** [s.endswith(suf)] *)
Definition endswith (s suf : pystr) : bool := startswith (rev s) (rev suf).

(** [s[n:]] *)
Definition slice_from (n : nat) (s : pystr) : pystr := skipn n s.

End PyStr.

(* ===================================================================== *)
(** ** to_os_path / to_api_path *)
(* ===================================================================== *)

Module Paths.
Import PyStr.

(** [os.path.sep] and the API separator.  The file-system side is the POSIX
    one ([posixpath]), where both are the slash. *)
Definition os_sep : ascii := "/"%char.
Definition slash : ascii := "/"%char.

(** [posixpath.join(a, *p)]: a component that starts with the separator
    restarts the path, otherwise it is appended, with a separator unless
    the path so far is empty or already ends with one. *)
Fixpoint os_path_join (path : pystr) (p : list pystr) : pystr :=
  match p with
  | [] => path
  | b :: p' =>
      let path' :=
        if startswith b [os_sep] then b
        else if is_empty path || endswith path [os_sep] then path ++ b
        else path ++ [os_sep] ++ b in
      os_path_join path' p'
  end.

(** [[p for p in parts if p != '']] *)
Definition drop_empty (parts : list pystr) : list pystr :=
  List.filter (fun p => negb (is_empty p)) parts.

Definition to_os_path (path root : pystr) : pystr :=
  let parts := split slash (strip slash path) in
  let parts := drop_empty parts in
  os_path_join root parts.

Definition to_api_path (os_path root : pystr) : pystr :=
  let os_path :=
    if startswith os_path root then slice_from (length root) os_path
    else os_path in
  let parts := split os_sep (strip os_sep os_path) in
  let parts := drop_empty parts in
  join [slash] parts.

(** The normal form the contract speaks of, written from its words: runs
    of slashes collapsed to one, then leading and trailing slashes
    removed. *)
Fixpoint collapse_slashes (s : pystr) : pystr :=
  match s with
  | [] => []
  | x :: s' =>
      match s' with
      | y :: _ =>
          if Ascii.eqb x slash && Ascii.eqb y slash then collapse_slashes s'
          else x :: collapse_slashes s'
      | [] => [x]
      end
  end.

Definition normalize_slashes (s : pystr) : pystr :=
  strip slash (collapse_slashes s).

(** The non-empty pieces of a path: what both conversions keep of it. *)
Definition segments (s : pystr) : list pystr := drop_empty (split slash s).

(** A usable path component: not empty and without a slash. *)
Definition component_ok (p : pystr) : Prop := p <> [] /\ ~ In slash p.

(** The root ends where a component of the path ends: the root is empty
  or ends with the separator, or what follows it is empty or starts with
  the separator. *)
Definition at_boundary (root rest : pystr) : bool :=
  is_empty root || endswith root [os_sep]
  || is_empty rest || startswith rest [os_sep].

End Paths.

(* ===================================================================== *)
(** ** Python exceptions and the state-and-exception monad *)
(* ===================================================================== *)

Module Py.

(** The exception classes that occur in the module and in the library
  functions it calls. *)
Inductive exc_class : Set :=
  | Exception
  | AttributeError
  | RuntimeError
  | NotImplementedError
  | RecursionError
  | TypeError
  | ValueError
  | NameError
  | UnboundLocalError
  | SystemError
  | Warning
  | UserWarning
  | DeprecationWarning
  | PendingDeprecationWarning.

Definition exc_class_eqb (a b : exc_class) : bool :=
  match a, b with
  | Exception, Exception | AttributeError, AttributeError
  | RuntimeError, RuntimeError
  | NotImplementedError, NotImplementedError
  | RecursionError, RecursionError | TypeError, TypeError
  | ValueError, ValueError | NameError, NameError
  | UnboundLocalError, UnboundLocalError
  | SystemError, SystemError
  | Warning, Warning | UserWarning, UserWarning
  | DeprecationWarning, DeprecationWarning
  | PendingDeprecationWarning, PendingDeprecationWarning => true
  | _, _ => false
  end.

(** The direct base class, [None] for [Exception] (the root kept here). *)
Definition base_class (c : exc_class) : option exc_class :=
  match c with
  | Exception => None
  | NotImplementedError | RecursionError => Some RuntimeError
  | UnboundLocalError => Some NameError
  | UserWarning | DeprecationWarning | PendingDeprecationWarning => Some Warning
  | _ => Some Exception
  end.

(** [issubclass(c, d)]; the hierarchy is three levels deep. *)
Definition issubclass (c d : exc_class) : bool :=
  exc_class_eqb c d
  || match base_class c with
     | None => false
     | Some b =>
         exc_class_eqb b d
         || match base_class b with
            | None => false
            | Some b' => exc_class_eqb b' d
            end
     end.

(** An exception instance: its class and [str(e)]. *)
Record exn : Set := mk_exn { exc_type : exc_class; exc_str : string }.

(** [isinstance(e, c)], what an [except c] clause tests. *)
Definition isinstance (e : exn) (c : exc_class) : bool :=
  issubclass (exc_type e) c.

(** The outcome of running a piece of Python code. *)
Inductive result (A : Type) : Type :=
  | Ok (a : A)
  | Raise (e : exn).
Arguments Ok {A} a.
Arguments Raise {A} e.

(** Code that reads and writes a state [S] and may raise: what it has
  written stays written when it raises. *)
Definition M (S A : Type) : Type := S -> result A * S.

Definition ret {S A : Type} (a : A) : M S A := fun s => (Ok a, s).

Definition raise {S A : Type} (e : exn) : M S A := fun s => (Raise e, s).

Definition bind {S A B : Type} (m : M S A) (k : A -> M S B) : M S B :=
  fun s =>
    match m s with
    | (Ok a, s') => k a s'
    | (Raise e, s') => (Raise e, s')
    end.

(** [try: body / except cls as e: handler e] *)
Definition try_except {S A : Type} (body : M S A) (cls : exc_class)
    (handler : exn -> M S A) : M S A :=
  fun s =>
    match body s with
    | (Ok a, s') => (Ok a, s')
    | (Raise e, s') =>
        if isinstance e cls then handler e s' else (Raise e, s')
    end.

(** [try: body / except cls as e: handler e / else: orelse]: the [else]
  suite runs after a body that did not raise, and is not guarded. *)
Definition try_except_else {S A B : Type} (body : M S A) (cls : exc_class)
    (handler : exn -> M S B) (orelse : A -> M S B) : M S B :=
  fun s =>
    match body s with
    | (Ok a, s') => orelse a s'
    | (Raise e, s') =>
        if isinstance e cls then handler e s' else (Raise e, s')
    end.

Definition get {S : Type} : M S S := fun s => (Ok s, s).
Definition modify {S : Type} (f : S -> S) : M S unit := fun s => (Ok tt, f s).

(** Reading a local variable that may not have been assigned. *)
Definition read_local {S A : Type} (name : string) (v : option A) : M S A :=
  match v with
  | Some a => ret a
  | None =>
      raise (mk_exn UnboundLocalError
               ("local variable '" ++ name ++ "' referenced before assignment"))
  end.

End Py.

Declare Scope py_scope.
Delimit Scope py_scope with py.
Notation "'let*' x ':=' m 'in' k" := (Py.bind m (fun x => k))
  (at level 10, x name, m at level 100, k at level 200) : py_scope.
Notation "'let*' ' p ':=' m 'in' k" := (Py.bind m (fun x => let 'p := x in k))
  (at level 10, p pattern, m at level 100, k at level 200) : py_scope.

(* ===================================================================== *)
(** ** check_version *)
(* ===================================================================== *)

Module Version.
Import Py.

(** One component of a [LooseVersion]: a number or a string. *)
Inductive component : Type :=
  | CInt (n : N)
  | CStr (s : pystr).

(** The character classes of [component_re], [(\d+ | [a-z]+ | \.)]. *)
Inductive char_class : Set := Digit | Lower | Dot | Other.

Definition classify (c : ascii) : char_class :=
  let n := nat_of_ascii c in
  if (48 <=? n) && (n <=? 57) then Digit
  else if (97 <=? n) && (n <=? 122) then Lower
  else if n =? 46 then Dot
  else Other.

Definition same_class (a b : char_class) : bool :=
  match a, b with
  | Digit, Digit | Lower, Lower | Other, Other => true
  | _, _ => false
  end.

(** [[x for x in component_re.split(vstring) if x and x != '.']]: the
  maximal runs of digits, of lower-case letters and of anything else, the
  dots dropped. *)
Definition head_class (s : pystr) : option char_class :=
  match s with
  | y :: _ => Some (classify y)
  | [] => None
  end.

Fixpoint component_split (s : pystr) : list pystr :=
  match s with
  | [] => []
  | x :: s' =>
      let rest := component_split s' in
      match classify x with
      | Dot => rest
      | k =>
          match head_class s', rest with
          | Some k', t :: ts =>
              if same_class k k' then (x :: t) :: ts else [x] :: rest
          | _, _ => [x] :: rest
          end
      end
  end.

(** [int(x)] on a run of decimal digits. *)
Definition int_of_digits (s : pystr) : N :=
  fold_left (fun acc c => (10 * acc + (N_of_ascii c - 48))%N) s 0%N.

(** [try: components[i] = int(obj) / except ValueError: pass].  A piece is
  one run, so [int] succeeds exactly on the runs of digits. *)
Definition convert (x : pystr) : component :=
  match x with
  | c :: _ => match classify c with
              | Digit => CInt (int_of_digits x)
              | _ => CStr x
              end
  | [] => CStr x
  end.

(** [LooseVersion.parse]: the value it stores in [self.version]. *)
Definition parse (vstring : pystr) : list component :=
  map convert (component_split vstring).

(** A [LooseVersion] object is its [version] attribute, [None] while the
  attribute is not set. *)
Definition loose_version : Type := option (list component).

(** [LooseVersion.__init__]: [if vstring: self.parse(vstring)], so the
  object made from the empty string has no [version]. *)
Definition LooseVersion (vstring : pystr) : loose_version :=
  if PyStr.is_empty vstring then None else Some (parse vstring).

Definition no_version_attribute : exn :=
  mk_exn AttributeError
    "'LooseVersion' object has no attribute 'version'"%string.

(** [self.version] *)
Definition get_version (self : loose_version) : result (list component) :=
  match self with
  | Some version => Ok version
  | None => Raise no_version_attribute
  end.

(** [a == b] on strings and [a < b] on strings (by code point). *)
Fixpoint str_eqb (a b : pystr) : bool :=
  match a, b with
  | [], [] => true
  | x :: a', y :: b' => Ascii.eqb x y && str_eqb a' b'
  | _, _ => false
  end.

Fixpoint str_ltb (a b : pystr) : bool :=
  match a, b with
  | _, [] => false
  | [], _ :: _ => true
  | x :: a', y :: b' =>
      if Ascii.eqb x y then str_ltb a' b'
      else (nat_of_ascii x <? nat_of_ascii y)%nat
  end.

(** [x == y]: never raises, a number and a string are unequal. *)
Definition comp_eq (x y : component) : bool :=
  match x, y with
  | CInt a, CInt b => N.eqb a b
  | CStr a, CStr b => str_eqb a b
  | _, _ => false
  end.

Definition not_supported (op l r : string) : exn :=
  mk_exn TypeError
    ("'" ++ op ++ "' not supported between instances of '" ++ l ++
     "' and '" ++ r ++ "'").

Definition type_name (x : component) : string :=
  match x with CInt _ => "int"%string | CStr _ => "str"%string end.

(** [x < y] and [x > y]: a number against a string raises [TypeError]. *)
Definition comp_lt (x y : component) : result bool :=
  match x, y with
  | CInt a, CInt b => Ok (N.ltb a b)
  | CStr a, CStr b => Ok (str_ltb a b)
  | _, _ => Raise (not_supported "<" (type_name x) (type_name y))
  end.

Definition comp_gt (x y : component) : result bool :=
  match x, y with
  | CInt a, CInt b => Ok (N.ltb b a)
  | CStr a, CStr b => Ok (str_ltb b a)
  | _, _ => Raise (not_supported ">" (type_name x) (type_name y))
  end.

(** [v == w] on lists. *)
Fixpoint list_eq (v w : list component) : bool :=
  match v, w with
  | [], [] => true
  | x :: v', y :: w' => comp_eq x y && list_eq v' w'
  | _, _ => false
  end.

(** [v < w] and [v > w] on lists: the first position where the items are
  unequal decides, through the items' own [<] or [>]; when one list runs
  out first the lengths decide. *)
Fixpoint list_lt (v w : list component) : result bool :=
  match v, w with
  | [], [] => Ok false
  | [], _ :: _ => Ok true
  | _ :: _, [] => Ok false
  | x :: v', y :: w' => if comp_eq x y then list_lt v' w' else comp_lt x y
  end.

Fixpoint list_gt (v w : list component) : result bool :=
  match v, w with
  | [], [] => Ok false
  | [], _ :: _ => Ok false
  | _ :: _, [] => Ok true
  | x :: v', y :: w' => if comp_eq x y then list_gt v' w' else comp_gt x y
  end.

(** [LooseVersion._cmp]: 0, -1 or 1; [None] when no test succeeds.  The
  first test reads [self.version], then [other.version]; either raises
  [AttributeError] on an object made from the empty string. *)
Definition _cmp (self other : loose_version) : result (option Z) :=
  match get_version self with
  | Raise e => Raise e
  | Ok v =>
      match get_version other with
      | Raise e => Raise e
      | Ok w =>
          if list_eq v w then Ok (Some 0%Z)
          else
            match list_lt v w with
            | Raise e => Raise e
            | Ok true => Ok (Some (-1)%Z)
            | Ok false =>
                match list_gt v w with
                | Raise e => Raise e
                | Ok true => Ok (Some 1%Z)
                | Ok false => Ok None
                end
            end
      end
  end.

(** [LooseVersion.__ge__]: [c >= 0]. *)
Definition LooseVersion_ge (self other : loose_version) : result bool :=
  match _cmp self other with
  | Raise e => Raise e
  | Ok (Some c) => Ok (0 <=? c)%Z
  | Ok None => Raise (not_supported ">=" "NoneType" "int")
  end.

(** [try: return LooseVersion(v) >= LooseVersion(check)]
  [except TypeError: return True]; any other exception goes on to the
  caller. *)
Definition check_version (v check : pystr) : result bool :=
  match LooseVersion_ge (LooseVersion v) (LooseVersion check) with
  | Ok b => Ok b
  | Raise e => if isinstance e TypeError then Ok true else Raise e
  end.

(** The ordering on versions, written from the contract's words: versions
  are compared component by component; the first unequal pair decides,
  numbers by value and strings alphabetically; a version that is a proper
  prefix of another is the smaller one.  A number against a string has no
  order ([None]). *)

(** Text against text, as in a dictionary: the first place where the two
  differ decides, by the code of the character there; a text that is the
  beginning of another comes first. *)
Fixpoint text_compare (a b : pystr) : comparison :=
  match a, b with
  | [], [] => Eq
  | [], _ :: _ => Lt
  | _ :: _, [] => Gt
  | x :: a', y :: b' =>
      match Ascii.compare x y with
      | Eq => text_compare a' b'
      | c => c
      end
  end.

Definition comp_compare (x y : component) : option comparison :=
  match x, y with
  | CInt a, CInt b => Some (N.compare a b)
  | CStr a, CStr b => Some (text_compare a b)
  | _, _ => None
  end.

Fixpoint version_compare (v w : list component) : option comparison :=
  match v, w with
  | [], [] => Some Eq
  | [], _ :: _ => Some Lt
  | _ :: _, [] => Some Gt
  | x :: v', y :: w' =>
      match comp_compare x y with
      | Some Eq => version_compare v' w'
      | other => other
      end
  end.

(** *** The reading of a version string

  Written from the words of the documentation of [LooseVersion], not from
  its code: a version is read from left to right as a series of fields; a
  field is a run of decimal digits, a run of lower-case letters, or a run of
  other characters, each as long as it can be; a dot ends a field and is not
  part of any.  A run of digits counts as the number it writes in base ten,
  every other run as the text itself. *)

Definition digits : pystr := py "0123456789".
Definition letters : pystr := py "abcdefghijklmnopqrstuvwxyz".

Definition is_in (c : ascii) (s : pystr) : bool := existsb (Ascii.eqb c) s.

Inductive run_kind : Set := Number | Letters | Rest.

Definition run_kind_eqb (a b : run_kind) : bool :=
  match a, b with
  | Number, Number | Letters, Letters | Rest, Rest => true
  | _, _ => false
  end.

(** The kind of run a character belongs to, [None] for the dot. *)
Definition kind_of (c : ascii) : option run_kind :=
  if is_in c digits then Some Number
  else if is_in c letters then Some Letters
  else if Ascii.eqb c "."%char then None
  else Some Rest.

(** The value of a digit: its place in ["0123456789"]. *)
Fixpoint position (c : ascii) (s : pystr) : N :=
  match s with
  | [] => 0%N
  | x :: s' => if Ascii.eqb c x then 0%N else (1 + position c s')%N
  end.

Definition digit_value (c : ascii) : N := position c digits.

(** The number written by a run of digits given last digit first: units,
  tens, hundreds and so on. *)
Fixpoint units_first (r : pystr) : N :=
  match r with
  | [] => 0%N
  | c :: r' => (digit_value c + 10 * units_first r')%N
  end.

(** The field that ends here: [cur] is the kind of the run being read and
  its characters, the last one read first. *)
Definition close (cur : option (run_kind * pystr)) : list component :=
  match cur with
  | None => []
  | Some (Number, r) => [CInt (units_first r)]
  | Some (_, r) => [CStr (rev r)]
  end.

Fixpoint read (cur : option (run_kind * pystr)) (s : pystr)
    : list component :=
  match s with
  | [] => close cur
  | c :: s' =>
      match kind_of c with
      | None => close cur ++ read None s'
      | Some k =>
          match cur with
          | None => read (Some (k, [c])) s'
          | Some (k0, r) =>
              if run_kind_eqb k k0 then read (Some (k0, c :: r)) s'
              else close cur ++ read (Some (k, [c])) s'
          end
      end
  end.

Definition version_fields (v : pystr) : list component := read None v.

(** The character class of the regular expression for each kind of run. *)
Definition class_of (k : run_kind) : char_class :=
  match k with Number => Digit | Letters => Lower | Rest => Other end.

(** The pieces of [run ++ s] when [run] is a run of kind [k] that is not
  empty: [run] joins the first piece of [s] when that one goes on with the
  same kind. *)
Definition extend_run (run : pystr) (k : run_kind) (s : pystr)
    : list pystr :=
  match head_class s, component_split s with
  | Some k', t :: ts =>
      if same_class (class_of k) k' then (run ++ t) :: ts
      else run :: component_split s
  | _, _ => run :: component_split s
  end.

End Version.

(* ===================================================================== *)
(** ** ensure_async / run_sync *)
(* ===================================================================== *)

Module Bridge.
Import Py.
Local Open Scope py_scope.
Local Open Scope string_scope.

(** Python values as the bridge sees them: plain values, and the two kinds
  of awaitable object, each a reference into the object store. *)
Inductive pyobj : Set :=
  | PNone
  | PInt (z : Z)
  | PStr (s : string)
  | PCoro (c : nat)
  | PFuture (f : nat).

(** [inspect.isawaitable(obj)] *)
Definition isawaitable (obj : pyobj) : bool :=
  match obj with
  | PCoro _ | PFuture _ => true
  | _ => false
  end.

(** A coroutine object: what its body produces when it is run to its end,
  how many times the body yields to the scheduler on the way, and whether
  the object has been awaited already. *)
Record coroutine : Set := mk_coroutine {
  co_body : result pyobj;
  co_yields : nat;
  co_awaited : bool
}.

(** A future is finished, or pending; a pending one is either a task that
  wraps a coroutine, or is resolved by code outside the bridge after some
  turns of the scheduler. *)
Inductive pending_source : Set :=
  | TaskFor (c : nat)
  | FromOutside (turns : nat) (r : result pyobj).

Inductive future : Set :=
  | Pending (src : pending_source)
  | Finished (r : result pyobj).

Definition done (fu : future) : bool :=
  match fu with
  | Finished _ => true
  | Pending _ => false
  end.

(** An event loop: closed or not, and the futures that belong to it, the
  tasks created on it among them. *)
Record event_loop : Set := mk_loop {
  lp_closed : bool;
  lp_tasks : list nat
}.

(** The interpreter state of the calling thread. [executed] and [turns] are
  bookkeeping: the coroutines whose bodies have been run (latest first) and
  the number of times an awaited computation gave control back to the
  scheduler. *)
Record world : Set := mk_world {
  coros : list coroutine;
  futures : list future;
  loops : list event_loop;
  current_loop : option nat;
  auto_loop : bool;
  running_loop : option nat;
  executed : list nat;
  turns : nat
}.

Definition set_coros (v : list coroutine) (w : world) : world :=
  mk_world v (futures w) (loops w) (current_loop w) (auto_loop w)
    (running_loop w) (executed w) (turns w).
Definition set_futures (v : list future) (w : world) : world :=
  mk_world (coros w) v (loops w) (current_loop w) (auto_loop w)
    (running_loop w) (executed w) (turns w).
Definition set_loops (v : list event_loop) (w : world) : world :=
  mk_world (coros w) (futures w) v (current_loop w) (auto_loop w)
    (running_loop w) (executed w) (turns w).
Definition set_current_loop (v : option nat) (w : world) : world :=
  mk_world (coros w) (futures w) (loops w) v false
    (running_loop w) (executed w) (turns w).
Definition set_executed (v : list nat) (w : world) : world :=
  mk_world (coros w) (futures w) (loops w) (current_loop w) (auto_loop w)
    (running_loop w) v (turns w).
Definition set_turns (v : nat) (w : world) : world :=
  mk_world (coros w) (futures w) (loops w) (current_loop w) (auto_loop w)
    (running_loop w) (executed w) v.

Definition cannot_reuse : exn :=
  mk_exn RuntimeError "cannot reuse already awaited coroutine".

(** A reference to an object the store does not hold; no value the
  interpreter hands out is like this. *)
Definition dangling : exn := mk_exn SystemError "no such object".

(** Running a coroutine object to its end.  One that was awaited before
  refuses; a fresh one runs its body, once. *)
Definition drive_coroutine (c : nat) : M world pyobj :=
  fun w =>
    match coros w !! c with
    | None => (Raise dangling, w)
    | Some co =>
        if co_awaited co then (Raise cannot_reuse, w)
        else
          let co' := mk_coroutine (co_body co) (co_yields co) true in
          (co_body co,
           set_turns (turns w + co_yields co)
             (set_executed (c :: executed w)
                (set_coros (<[c := co']> (coros w)) w)))
    end.

Definition finish (f : nat) (r : result pyobj) : M world pyobj :=
  fun w => (r, set_futures (<[f := Finished r]> (futures w)) w).

(** Waiting for a future: a finished one hands out its result (or raises
  its exception) every time; a pending one is waited for. *)
Definition wait_future (f : nat) : M world pyobj :=
  fun w =>
    match futures w !! f with
    | None => (Raise dangling, w)
    | Some (Finished r) => (r, w)
    | Some (Pending (FromOutside n r)) =>
        finish f r (set_turns (turns w + n) w)
    | Some (Pending (TaskFor c)) =>
        let '(r, w') := drive_coroutine c w in
        finish f r (set_turns (S (turns w')) w')
    end.

(** [await obj], run to the point where the awaiting code continues. *)
Definition await (obj : pyobj) : M world pyobj :=
  match obj with
  | PCoro c => drive_coroutine c
  | PFuture f => wait_future f
  | _ => raise (mk_exn TypeError "object can't be used in 'await' expression")
  end.

(** The call [ensure_async(obj)], driven to its end. *)
Definition ensure_async (obj : pyobj) : M world pyobj :=
  if isawaitable obj then
    let* result :=
      try_except (await obj) RuntimeError (fun e =>
        if String.eqb (exc_str e) "cannot reuse already awaited coroutine"
        then
          (* obj is already the coroutine's result *)
          ret obj
        else raise e) in
    ret result
  else
    (* obj doesn't need to be awaited *)
    ret obj.

(** [asyncio.new_event_loop()] *)
Definition new_event_loop : M world nat :=
  fun w => (Ok (length (loops w)), set_loops (loops w ++ [mk_loop false []]) w).

(** [asyncio.set_event_loop(loop)] *)
Definition set_event_loop (l : nat) : M world unit :=
  modify (set_current_loop (Some l)).

(** [asyncio.get_event_loop()]: the running loop if there is one;
  otherwise the thread's current loop, which the main thread gets created
  on first use as long as [set_event_loop] was never called. *)
Definition get_event_loop : M world nat :=
  let* w := get in
  match running_loop w with
  | Some l => ret l
  | None =>
      let* _ :=
        match current_loop w with
        | None =>
            if auto_loop w
            then let* l := new_event_loop in set_event_loop l
            else ret tt
        | Some _ => ret tt
        end in
      let* w := get in
      match current_loop w with
      | Some l => ret l
      | None =>
          raise (mk_exn RuntimeError "There is no current event loop in thread.")
      end
  end.

(** [loop.is_closed()] *)
Definition is_closed (l : nat) : M world bool :=
  let* w := get in
  match loops w !! l with
  | Some lp => ret (lp_closed lp)
  | None => raise dangling
  end.

(** [loop.create_task(coro)] *)
Definition create_task (l c : nat) : M world pyobj :=
  fun w =>
    let f := length (futures w) in
    let add lp := mk_loop (lp_closed lp) (lp_tasks lp ++ [f]) in
    (Ok (PFuture f),
     set_loops (alter add l (loops w))
       (set_futures (futures w ++ [Pending (TaskFor c)]) w)).

Definition not_awaitable : exn :=
  mk_exn TypeError "An asyncio.Future, a coroutine or an awaitable is required".

(** [asyncio.ensure_future(obj)]: a future is returned as it is, a
  coroutine is wrapped in a new task on the loop [get_event_loop()] gives. *)
Definition asyncio_ensure_future (obj : pyobj) : M world pyobj :=
  match obj with
  | PCoro c => let* l := get_event_loop in create_task l c
  | PFuture _ => ret obj
  | _ => raise not_awaitable
  end.

(** [futures._get_loop(fut) is loop] *)
Definition belongs_to (w : world) (f l : nat) : bool :=
  match loops w !! l with
  | Some lp => existsb (Nat.eqb f) (lp_tasks lp)
  | None => false
  end.

Definition different_loop : exn :=
  mk_exn ValueError
    "The future belongs to a different loop than the one specified as the loop argument".

(** [asyncio.ensure_future(obj, loop=l)]: a future is returned as it is
  when it belongs to the loop [l] and refused when it belongs to another
  one; a coroutine is wrapped in a new task on [l]. *)
Definition ensure_future_on (l : nat) (obj : pyobj) : M world pyobj :=
  match obj with
  | PCoro c => create_task l c
  | PFuture f =>
      let* w := get in
      if belongs_to w f l then ret obj else raise different_loop
  | _ => raise not_awaitable
  end.

(** [loop.run_until_complete(obj)]: refuses on a closed loop and when a
  loop is running in this thread already, and refuses a future of another
  loop; otherwise blocks until the future for [obj] is finished and gives
  its result. *)
Definition run_until_complete (l : nat) (obj : pyobj) : M world pyobj :=
  let* closed := is_closed l in
  if closed then raise (mk_exn RuntimeError "Event loop is closed")
  else
    let* w := get in
    match running_loop w with
    | Some l' =>
        if Nat.eqb l' l
        then raise (mk_exn RuntimeError "This event loop is already running")
        else raise (mk_exn RuntimeError
                      "Cannot run the event loop while another loop is running")
    | None =>
        let* fut := ensure_future_on l obj in
        await fut
    end.

(** The inner function [wrapped] of [run_sync].  The locals [loop] and
  [result] are unassigned until an assignment is reached. *)
Definition wrapped (maybe_async : pyobj) : M world pyobj :=
  let create_new_event_loop := false in
  let* '(loop, create_new_event_loop) :=
    try_except_else get_event_loop
      RuntimeError
      (fun _ => ret (None, true))
      (fun l =>
         let* closed := is_closed l in
         ret (Some l, if closed then true else create_new_event_loop)) in
  let* loop :=
    if (create_new_event_loop : bool) then
      let* l := new_event_loop in
      let* _ := set_event_loop l in
      ret (Some l)
    else ret loop in
  let* result :=
    try_except
      (let* l := read_local "loop" loop in
       let* r := run_until_complete l maybe_async in
       ret (Some r))
      RuntimeError
      (fun e =>
         if String.eqb (exc_str e) "This event loop is already running" then
           (* just return a Future, hoping that it will be awaited *)
           let* r := asyncio_ensure_future maybe_async in
           ret (Some r)
         else ret None) in
  read_local "result" result.

Definition run_sync (maybe_async : pyobj) : M world pyobj :=
  if negb (isawaitable maybe_async) then
    (* that was not something async, just return it *)
    ret maybe_async
  else
    (* it is async, we need to run it in an event loop *)
    wrapped maybe_async.

(** [obj] is an awaitable that gives the value [r] when it is driven in
  [w]: a coroutine not awaited yet whose body returns [r], a future that
  holds [r] or is going to, or a task for such a coroutine. *)
Definition fresh_coroutine_returning (w : world) (c : nat) (r : pyobj) : Prop :=
  exists co, coros w !! c = Some co /\ co_awaited co = false
             /\ co_body co = Ok r.

Definition resolves_to (w : world) (obj r : pyobj) : Prop :=
  match obj with
  | PCoro c => fresh_coroutine_returning w c r
  | PFuture f =>
      match futures w !! f with
      | Some (Finished (Ok r')) => r' = r
      | Some (Pending (FromOutside _ (Ok r'))) => r' = r
      | Some (Pending (TaskFor c)) => fresh_coroutine_returning w c r
      | _ => False
      end
  | _ => False
  end.

(** [obj] can be driven on the loop [l]: a coroutine can be on any loop,
  a future on the loop it belongs to. *)
Definition drivable_on (w : world) (obj : pyobj) (l : nat) : Prop :=
  match obj with
  | PFuture f => belongs_to w f l = true
  | _ => True
  end.

(** The computation behind [obj] has come to its end in [w]. *)
Definition is_completed (w : world) (obj : pyobj) : bool :=
  match obj with
  | PCoro c =>
      match coros w !! c with
      | Some co => co_awaited co
      | None => false
      end
  | PFuture f =>
      match futures w !! f with
      | Some fu => done fu
      | None => false
      end
  | _ => false
  end.

(** The future [f] exists in [w] and is not finished. *)
Definition is_pending (w : world) (f : nat) : bool :=
  match futures w !! f with
  | Some fu => negb (done fu)
  | None => false
  end.

(** A world to try things in: the given objects, one open event loop that
  is the thread's current loop and is not running; the futures belong to
  that loop. *)
Definition idle_world (cs : list coroutine) (fs : list future) : world :=
  mk_world cs fs [mk_loop false (seq 0 (length fs))] (Some 0) false None [] 0.

(** The same with the loop running: code called from inside a task. *)
Definition busy_world (cs : list coroutine) (fs : list future) : world :=
  mk_world cs fs [mk_loop false (seq 0 (length fs))] (Some 0) false (Some 0)
    [] 0.

(** What reading the unassigned local [result] raises. *)
Definition unbound_result : exn :=
  mk_exn UnboundLocalError
    "local variable 'result' referenced before assignment".

End Bridge.

(* ===================================================================== *)
(** ** The deprecated decorator *)
(* ===================================================================== *)

Module Deprecation.
Import Py.
Local Open Scope py_scope.
Local Open Scope string_scope.

(** The actions of a warnings filter. *)
Inductive action : Set :=
  | Always | Ignore | Error | Once | Default | PerModule.

(** A filter as [warnings.simplefilter] makes them: an action, a category
  and a line number, 0 for any line. *)
Record wfilter : Set := mk_filter {
  f_action : action;
  f_category : exc_class;
  f_lineno : Z
}.

Definition action_eqb (a b : action) : bool :=
  match a, b with
  | Always, Always | Ignore, Ignore | Error, Error | Once, Once
  | Default, Default | PerModule, PerModule => true
  | _, _ => false
  end.

Definition wfilter_eqb (a b : wfilter) : bool :=
  action_eqb (f_action a) (f_action b)
  && exc_class_eqb (f_category a) (f_category b)
  && Z.eqb (f_lineno a) (f_lineno b).

(** A warning that was shown. *)
Record shown_warning : Set := mk_shown {
  sw_text : string;
  sw_category : exc_class;
  sw_filename : string;
  sw_lineno : Z
}.

(** The state of the [warnings] module: the filter list, the default
  action, the registry of the [once] action and the warnings shown so far
  (oldest first). *)
Record wstate : Set := mk_wstate {
  filters : list wfilter;
  defaultaction : action;
  onceregistry : list (string * exc_class);
  shown : list shown_warning
}.

(** [warnings.simplefilter(action, category)]: the entry goes to the front
  of the filter list, an equal entry further down is removed. *)
Definition remove_first (item : wfilter) : list wfilter -> list wfilter :=
  fix go (l : list wfilter) : list wfilter :=
    match l with
    | [] => []
    | x :: l' => if wfilter_eqb x item then l' else x :: go l'
    end.

Definition simplefilter (a : action) (category : exc_class) : M wstate unit :=
  modify (fun w =>
    let item := mk_filter a category 0 in
    mk_wstate (item :: remove_first item (filters w))
      (defaultaction w) (onceregistry w) (shown w)).

(** The first filter that matches the category and the line. *)
Fixpoint find_action (fs : list wfilter) (category : exc_class) (lineno : Z)
    (dflt : action) : action :=
  match fs with
  | [] => dflt
  | f :: fs' =>
      if issubclass category (f_category f)
         && (Z.eqb (f_lineno f) 0 || Z.eqb lineno (f_lineno f))
      then f_action f
      else find_action fs' category lineno dflt
  end.

Definition in_once (key : string * exc_class)
    (reg : list (string * exc_class)) : bool :=
  existsb (fun k => String.eqb (fst k) (fst key)
                    && exc_class_eqb (snd k) (snd key)) reg.

Definition show (sw : shown_warning) : M wstate unit :=
  modify (fun w =>
    mk_wstate (filters w) (defaultaction w) (onceregistry w) (shown w ++ [sw])).

(** [warnings.warn_explicit(message, category, filename, lineno)], called
  without a registry: the per-location registry is a fresh one each time. *)
Definition warn_explicit (message : string) (category : exc_class)
    (filename : string) (lineno : Z) : M wstate unit :=
  let* w := get in
  let sw := mk_shown message category filename lineno in
  match find_action (filters w) category lineno (defaultaction w) with
  | Ignore => ret tt
  | Error => raise (mk_exn category message)
  | Once =>
      if in_once (message, category) (onceregistry w) then ret tt
      else
        let* _ := modify (fun w =>
          mk_wstate (filters w) (defaultaction w)
            ((message, category) :: onceregistry w) (shown w)) in
        show sw
  | Always | Default | PerModule => show sw
  end.

(** A Python function: its name, its doc string, where its code starts,
  and what a call does on the arguments. *)
Record pyfunc (A B : Type) : Type := mk_func {
  fn_name : string;
  fn_doc : option string;
  co_filename : string;
  co_firstlineno : Z;
  fn_call : A -> M wstate B
}.
Arguments mk_func {A B}.
Arguments fn_name {A B}.
Arguments fn_doc {A B}.
Arguments co_filename {A B}.
Arguments co_firstlineno {A B}.
Arguments fn_call {A B}.

(** An instance of the class [deprecated]. *)
Record deprecated : Set := mk_deprecated {
  alt_func : option string;
  behavior : string;
  removed_version : option string
}.

(** [deprecated.__init__] with its defaults. *)
Definition deprecated_init (alt_func : option string)
    (behavior : option string) (removed_version : option string) : deprecated :=
  mk_deprecated alt_func
    (match behavior with Some b => b | None => "warn" end)
    removed_version.

Definition alt_msg (self : deprecated) : string :=
  match alt_func self with
  | Some a => " Use ``" ++ a ++ "`` instead."
  | None => ""
  end.

Definition rmv_msg (self : deprecated) : string :=
  match removed_version self with
  | Some v => " and will be removed in version " ++ v
  | None => ""
  end.

Definition msg {A B : Type} (self : deprecated) (func : pyfunc A B) : string :=
  "Function ``" ++ fn_name func ++ "`` is deprecated"
  ++ rmv_msg self ++ "." ++ alt_msg self.

(** The body of the inner function [wrapped]. *)
Definition wrapped {A B : Type} (self : deprecated) (func : pyfunc A B)
    (args : A) : M wstate B :=
  let* _ :=
    if String.eqb (behavior self) "warn" then
      let* _ := simplefilter Always DeprecationWarning in
      warn_explicit (msg self func) DeprecationWarning
        (co_filename func) (co_firstlineno func + 1)
    else if String.eqb (behavior self) "raise" then
      raise (mk_exn DeprecationWarning (msg self func))
    else ret tt in
  fn_call func args.

(** [deprecated.__call__(self, func)]: the wrapper carries the name of
  [func] ([functools.wraps]) and an amended doc string; its own code is
  the [def wrapped] of this module. *)
Definition deprecated_call {A B : Type} (self : deprecated)
    (func : pyfunc A B) : pyfunc A B :=
  let doc := "**Deprecated function**." ++ alt_msg self in
  mk_func (fn_name func)
    (match fn_doc func with
     | None => Some doc
     | Some d => Some (doc ++ String (ascii_of_nat 10) (String (ascii_of_nat 10) "    ") ++ d)
     end)
    "jupyter_server/utils.py" 268
    (wrapped self func).

(** The state of the [warnings] module after the wrapper has warned: the
  [always] filter for [DeprecationWarning] in front, and one more warning
  shown, located one line below the first line of [func]. *)
Definition warned {A B : Type} (self : deprecated) (func : pyfunc A B)
    (w : wstate) : wstate :=
  let item := mk_filter Always DeprecationWarning 0 in
  mk_wstate (item :: remove_first item (filters w))
    (defaultaction w) (onceregistry w)
    (shown w ++ [mk_shown (msg self func) DeprecationWarning
                   (co_filename func) (co_firstlineno func + 1)]).

(** A function to deprecate: it returns its argument. *)
Definition old_function : pyfunc Z Z :=
  mk_func "old" None "pkg/mod.py" 10 (fun x => ret x).

Definition marked_old_function : pyfunc Z Z :=
  deprecated_call (deprecated_init (Some "new") None (Some "2.0")) old_function.

Definition the_warning : shown_warning :=
  mk_shown
    "Function ``old`` is deprecated and will be removed in version 2.0. Use ``new`` instead."
    DeprecationWarning "pkg/mod.py" 11.

Definition fresh_warnings : wstate := mk_wstate [] Default [] [].

End Deprecation.

(* ===================================================================== *)
(** ** url_path_join, path2url, url2path, url_escape, url_unescape *)
(* ===================================================================== *)

Module Urls.
Import PyStr Paths.

(** What indexing an empty argument tuple raises. *)
Inductive call_error : Set :=
  | IndexError (msg : string).

Definition tuple_index_out_of_range : call_error :=
  IndexError "tuple index out of range"%string.

(** [pieces[0]] and [pieces[-1]] *)
Definition first_piece (pieces : list pystr) : call_error + pystr :=
  match pieces with
  | [] => inl tuple_index_out_of_range
  | p :: _ => inr p
  end.

Fixpoint last_piece (pieces : list pystr) : call_error + pystr :=
  match pieces with
  | [] => inl tuple_index_out_of_range
  | [p] => inr p
  | _ :: pieces' => last_piece pieces'
  end.

Definition url_path_join (pieces : list pystr) : call_error + pystr :=
  match first_piece pieces with
  | inl e => inl e
  | inr p0 =>
      let initial := startswith p0 [slash] in
      match last_piece pieces with
      | inl e => inl e
      | inr pn =>
          let final := endswith pn [slash] in
          let stripped := map (strip slash) pieces in
          let result := join [slash] (drop_empty stripped) in
          let result := if initial then [slash] ++ result else result in
          let result := if final then result ++ [slash] else result in
          let result :=
            if Version.str_eqb result [slash; slash] then [slash]
            else result in
          inr result
      end
  end.

(** The characters [urllib.parse.quote] never escapes: letters, digits and
  [_.-~]. *)
Definition always_safe (c : ascii) : bool :=
  let n := nat_of_ascii c in
  ((65 <=? n) && (n <=? 90)) || ((97 <=? n) && (n <=? 122))
  || ((48 <=? n) && (n <=? 57))
  || (n =? 95) || (n =? 46) || (n =? 45) || (n =? 126).

Definition hex_digit (n : nat) : ascii :=
  ascii_of_nat (if n <? 10 then 48 + n else 55 + n).

(** [%XX] for one byte, upper-case digits. *)
Definition percent_byte (b : nat) : pystr :=
  ["%"%char; hex_digit (b / 16); hex_digit (b mod 16)].

(** The UTF-8 bytes of a character; the characters of [pystr] are the code
  points below 256, which take one or two bytes. *)
Definition utf8_bytes (c : ascii) : list nat :=
  let n := nat_of_ascii c in
  if n <? 128 then [n] else [192 + n / 64; 128 + n mod 64].

Definition quote_char (c : ascii) : pystr :=
  if always_safe c || Ascii.eqb c slash then [c]
  else flat_map percent_byte (utf8_bytes c).

(** [urllib.parse.quote(s)], with its default [safe='/'], on the strings
  of [pystr].  (The library function encodes a character from U+0100 on
  in more bytes and raises [UnicodeEncodeError] on a lone surrogate;
  neither occurs in a [pystr].) *)
Definition quote (s : pystr) : pystr := flat_map quote_char s.

(** The value of a hexadecimal digit, of either case. *)
Definition hex_value (c : ascii) : option nat :=
  let n := nat_of_ascii c in
  if (48 <=? n) && (n <=? 57) then Some (n - 48)
  else if (65 <=? n) && (n <=? 70) then Some (n - 55)
  else if (97 <=? n) && (n <=? 102) then Some (n - 87)
  else None.

Definition hex_pair (h1 h2 : ascii) : option nat :=
  match hex_value h1, hex_value h2 with
  | Some a, Some b => Some (16 * a + b)
  | _, _ => None
  end.

(** [urllib.parse.unquote(s)].  A percent sign with two hexadecimal digits
  stands for a byte, any other percent sign for itself; the bytes are read
  as UTF-8.  The result is [None] when the text [unquote] returns holds a
  character that [pystr] has not (a code point above 255, which includes
  the replacement character U+FFFD that stands for bytes that are not
  UTF-8). *)
Fixpoint unquote (s : pystr) : option pystr :=
  match s with
  | [] => Some []
  | c :: s1 =>
      let literal := option_map (cons c) (unquote s1) in
      if Ascii.eqb c "%" then
        match s1 with
        | h1 :: h2 :: s3 =>
            match hex_pair h1 h2 with
            | None => literal
            | Some b =>
                if b <? 128 then
                  option_map (cons (ascii_of_nat b)) (unquote s3)
                else if (b =? 194) || (b =? 195) then
                  match s3 with
                  | p :: h3 :: h4 :: s6 =>
                      match hex_pair h3 h4 with
                      | Some b2 =>
                          if Ascii.eqb p "%" && (128 <=? b2) && (b2 <? 192)
                          then
                            option_map
                              (cons (ascii_of_nat ((b - 192) * 64 + (b2 - 128))))
                              (unquote s6)
                          else None
                      | None => None
                      end
                  | _ => None
                  end
                else None
            end
        | _ => literal
        end
      else literal
  end.

(** [[unquote(p) for p in pieces]] *)
Fixpoint unquote_all (pieces : list pystr) : option (list pystr) :=
  match pieces with
  | [] => Some []
  | p :: pieces' =>
      match unquote p, unquote_all pieces' with
      | Some a, Some l => Some (a :: l)
      | _, _ => None
      end
  end.

(** [if pieces[-1] == '': pieces[-1] = '/'] *)
Fixpoint keep_trailing (pieces : list pystr) : list pystr :=
  match pieces with
  | [] => []
  | [p] => [if is_empty p then [slash] else p]
  | p :: pieces' => p :: keep_trailing pieces'
  end.

Definition path2url (path : pystr) : call_error + pystr :=
  let pieces := map quote (split os_sep path) in
  (* preserve trailing / *)
  let pieces := keep_trailing pieces in
  url_path_join pieces.

(** [os.path.join] applied to the pieces; [str.split] never gives an
  empty list, so there is a first piece. *)
Definition url2path (url : pystr) : option pystr :=
  match unquote_all (split slash url) with
  | Some pieces => Some (os_path_join (hd [] pieces) (tl pieces))
  | None => None
  end.

(** In Python 3 the [py3compat] conversions around [quote] and [unquote]
  leave a [str] as it is. *)
Definition url_escape (path : pystr) : pystr :=
  let parts := split slash path in
  join [slash] (map quote parts).

Definition url_unescape (path : pystr) : option pystr :=
  match unquote_all (split slash path) with
  | Some parts => Some (join [slash] parts)
  | None => None
  end.

(** The string has two slashes in a row somewhere. *)
Fixpoint has_double_slash (s : pystr) : bool :=
  match s with
  | [] => false
  | x :: s' =>
      match s' with
      | y :: _ => (Ascii.eqb x slash && Ascii.eqb y slash) || has_double_slash s'
      | [] => false
      end
  end.

(** No piece is empty except, possibly, the last: the pieces of a relative
  path that has no empty component and may end with a separator. *)
Fixpoint inner_pieces_nonempty (pieces : list pystr) : bool :=
  match pieces with
  | [] => true
  | [_] => true
  | p :: pieces' => negb (is_empty p) && inner_pieces_nonempty pieces'
  end.

(** A piece as it enters the joined string: not empty, no slash at either
  end. *)
Definition trimmed_piece (q : pystr) : Prop :=
  q <> [] /\ startswith q [slash] = false /\ endswith q [slash] = false.

(** The characters an escaped path is made of: the ones [quote] never
  escapes, the slash and the percent sign. *)
Definition url_char (c : ascii) : bool :=
  always_safe c || Ascii.eqb c slash || Ascii.eqb c "%".

End Urls.

(* ===================================================================== *)
(** ** Versions made of numbers *)
(* ===================================================================== *)

Module NumericVersions.
Import Version.

(** A run of decimal digits, not empty. *)
Definition digit_run (d : pystr) : Prop :=
  d <> [] /\ Forall (fun c => classify c = Digit) d.

(** The version string with the given fields, a dot between them. *)
Definition dotted (fields : list pystr) : pystr :=
  PyStr.join ["."%char] fields.

(** Lists of numbers compared field by field; a list that is a proper
  prefix of another comes first. *)
Fixpoint nums_compare (ns ms : list N) : comparison :=
  match ns, ms with
  | [], [] => Eq
  | [], _ :: _ => Lt
  | _ :: _, [] => Gt
  | n :: ns', m :: ms' =>
      match N.compare n m with
      | Eq => nums_compare ns' ms'
      | c => c
      end
  end.

End NumericVersions.

(* ===================================================================== *)
(** ** The steps of run_sync *)
(* ===================================================================== *)

Module BridgeSteps.
Import Py Bridge.
Local Open Scope string_scope.
Local Open Scope list_scope.

(** The world after [asyncio.new_event_loop()] and
  [asyncio.set_event_loop(loop)]. *)
Definition with_new_loop (w : world) : world :=
  set_current_loop (Some (length (loops w)))
    (set_loops (loops w ++ [mk_loop false []]) w).

(** What the inner function of [run_sync] does once its local [loop] is
  assigned: the second [try] statement and the [return]. *)
Definition drive_on (l : nat) (obj : pyobj) (w : world)
    : result pyobj * world :=
  match run_until_complete l obj w with
  | (Ok r, w') => (Ok r, w')
  | (Raise e, w') =>
      if isinstance e RuntimeError then
        if String.eqb (exc_str e) "This event loop is already running" then
          asyncio_ensure_future obj w'
        else (Raise unbound_result, w')
      else (Raise e, w')
  end.

End BridgeSteps.

(* ===================================================================== *)
(** * Properties of the path helpers *)
(* ===================================================================== *)

Section PathFacts.
Import PyStr Paths.

Lemma split_not_nil (c : ascii) (s : pystr) : split c s <> [].
Proof.
  induction s as [|x s IH]; simpl; [discriminate|].
  destruct (Ascii.eqb x c); [discriminate|].
  destruct (split c s); [contradiction|discriminate].
Qed.

Lemma split_app_sep (c : ascii) (a b : pystr) :
  split c (a ++ c :: b) = split c a ++ split c b.
Proof.
  induction a as [|x a IH]; simpl.
  - now rewrite Ascii.eqb_refl.
  - destruct (Ascii.eqb x c); [now rewrite IH|].
    rewrite IH. pose proof (split_not_nil c a) as Hn.
    destruct (split c a); [contradiction|reflexivity].
Qed.

Lemma split_sepfree (c : ascii) (p : pystr) : ~ In c p -> split c p = [p].
Proof.
  induction p as [|x p IH]; simpl; intros Hn; [reflexivity|].
  destruct (Ascii.eqb x c) eqn:E.
  - apply Ascii.eqb_eq in E. subst. exfalso. apply Hn. now left.
  - rewrite IH; [reflexivity|]. intros Hin. apply Hn. now right.
Qed.

Lemma split_pieces_sepfree (c : ascii) (s : pystr) :
  Forall (fun p => ~ In c p) (split c s).
Proof.
  induction s as [|x s IH]; simpl.
  - constructor; [intros []|constructor].
  - destruct (Ascii.eqb x c) eqn:E.
    + constructor; [intros []|exact IH].
    + destruct (split c s) as [|p ps].
      * constructor; [|constructor]. intros [H|[]]. subst.
        now rewrite Ascii.eqb_refl in E.
      * inversion IH as [|? ? Hp Hps]; subst. constructor; [|exact Hps].
        intros [H|H]; [subst; now rewrite Ascii.eqb_refl in E|auto].
Qed.

Lemma drop_empty_app (l k : list pystr) :
  drop_empty (l ++ k) = drop_empty l ++ drop_empty k.
Proof. unfold drop_empty. apply List.filter_app. Qed.

Lemma segments_nil : segments [] = [].
Proof. reflexivity. Qed.

Lemma segments_app_sep (a b : pystr) :
  segments (a ++ slash :: b) = segments a ++ segments b.
Proof. unfold segments. now rewrite split_app_sep, drop_empty_app. Qed.

Lemma segments_cons_sep (s : pystr) : segments (slash :: s) = segments s.
Proof. exact (segments_app_sep [] s). Qed.

Lemma segments_snoc_sep (s : pystr) : segments (s ++ [slash]) = segments s.
Proof. rewrite segments_app_sep. simpl. apply app_nil_r. Qed.

Lemma segments_ok (s : pystr) : Forall component_ok (segments s).
Proof.
  unfold segments, drop_empty.
  pose proof (split_pieces_sepfree slash s) as H.
  induction H as [|p ps Hp Hps IH]; simpl; [constructor|].
  destruct p; simpl; [exact IH|].
  constructor; [|exact IH]. split; [discriminate|exact Hp].
Qed.

Lemma segments_single (p : pystr) : component_ok p -> segments p = [p].
Proof.
  intros [Hne Hfree]. unfold segments. rewrite split_sepfree by exact Hfree.
  destruct p; [contradiction|reflexivity].
Qed.

Lemma join_cons (c : ascii) (p : pystr) (ps : list pystr) :
  ps <> [] -> join [c] (p :: ps) = p ++ c :: join [c] ps.
Proof. destruct ps; [contradiction|reflexivity]. Qed.

Lemma segments_join (parts : list pystr) :
  Forall component_ok parts -> segments (join [slash] parts) = parts.
Proof.
  induction 1 as [|p ps Hp Hps IH]; [reflexivity|].
  destruct ps as [|q ps].
  - simpl. now apply segments_single.
  - rewrite join_cons by discriminate.
    rewrite segments_app_sep, IH, segments_single by exact Hp. reflexivity.
Qed.

Lemma segments_lstrip (s : pystr) : segments (lstrip slash s) = segments s.
Proof.
  induction s as [|x s IH]; simpl; [reflexivity|].
  destruct (Ascii.eqb x slash) eqn:E; [|reflexivity].
  apply Ascii.eqb_eq in E. subst. now rewrite segments_cons_sep.
Qed.

Lemma endswith_snoc (s : pystr) (x c : ascii) :
  endswith (s ++ [x]) [c] = Ascii.eqb x c.
Proof.
  unfold endswith. rewrite rev_app_distr. simpl. apply andb_true_r.
Qed.

Lemma rstrip_decompose (c : ascii) (s : pystr) :
  exists n, s = rstrip c s ++ repeat c n.
Proof.
  induction s as [|x s [n IH]]; simpl.
  - now exists 0.
  - destruct (Ascii.eqb x c) eqn:E; simpl.
    + apply Ascii.eqb_eq in E. subst x.
      destruct (rstrip c s) eqn:R; simpl.
      * exists (S n). simpl. now rewrite IH at 1.
      * exists n. simpl. now rewrite IH at 1.
    + exists n. now rewrite IH at 1.
Qed.

(** What [rstrip] computes: it takes a run of the character off the end,
  and what is left does not end with the character. *)
Lemma endswith_cons (x c : ascii) (r : pystr) :
  r <> [] -> endswith (x :: r) [c] = endswith r [c].
Proof.
  intros Hne. destruct (exists_last Hne) as [r' [y ->]].
  now rewrite app_comm_cons, !endswith_snoc.
Qed.

Lemma rstrip_not_endswith (c : ascii) (s : pystr) :
  endswith (rstrip c s) [c] = false.
Proof.
  induction s as [|x s IH]; [reflexivity|]. cbn [rstrip].
  destruct (rstrip c s) as [|y r] eqn:R.
  - rewrite andb_true_r. destruct (Ascii.eqb x c) eqn:E; [reflexivity|].
    change [x] with ([] ++ [x]). now rewrite endswith_snoc.
  - rewrite andb_false_r. now rewrite endswith_cons.
Qed.

Lemma lstrip_decompose (c : ascii) (s : pystr) :
  exists n, s = repeat c n ++ lstrip c s.
Proof.
  induction s as [|x s [n IH]]; [now exists 0|]. cbn [lstrip].
  destruct (Ascii.eqb x c) eqn:E.
  - apply Ascii.eqb_eq in E. subst x. exists (S n). simpl. now rewrite <- IH.
  - now exists 0.
Qed.

Lemma lstrip_not_startswith (c : ascii) (s : pystr) :
  startswith (lstrip c s) [c] = false.
Proof.
  induction s as [|x s IH]; [reflexivity|]. cbn [lstrip].
  destruct (Ascii.eqb x c) eqn:E; [exact IH|]. cbn [startswith].
  now rewrite E.
Qed.

Lemma segments_app_repeat (s : pystr) (n : nat) :
  segments (s ++ repeat slash n) = segments s.
Proof.
  revert s. induction n as [|n IH]; intros s; simpl.
  - now rewrite app_nil_r.
  - rewrite segments_app_sep. specialize (IH []). simpl in IH.
    rewrite IH. simpl. apply app_nil_r.
Qed.

Lemma segments_rstrip (s : pystr) : segments (rstrip slash s) = segments s.
Proof.
  destruct (rstrip_decompose slash s) as [n H].
  rewrite H at 2. now rewrite segments_app_repeat.
Qed.

Lemma segments_strip (s : pystr) : segments (strip slash s) = segments s.
Proof. unfold strip. now rewrite segments_rstrip, segments_lstrip. Qed.

Lemma startswith_app (r x : pystr) : startswith (r ++ x) r = true.
Proof.
  induction r as [|a r IH]; simpl; [reflexivity|].
  now rewrite Ascii.eqb_refl, IH.
Qed.

Lemma startswith_split (s pre : pystr) :
  startswith s pre = true -> s = pre ++ slice_from (length pre) s.
Proof.
  revert s. induction pre as [|b pre IH]; intros s H; [reflexivity|].
  destruct s as [|a s]; simpl in H; [discriminate|].
  apply andb_prop in H. destruct H as [E H].
  apply Ascii.eqb_eq in E. subst. simpl. f_equal. now apply IH.
Qed.

Lemma slice_from_app (r x : pystr) : slice_from (length r) (r ++ x) = x.
Proof. unfold slice_from. induction r; simpl; auto. Qed.

Lemma endswith_inv (s : pystr) (c : ascii) :
  endswith s [c] = true -> exists s', s = s' ++ [c].
Proof.
  destruct s as [|a s0]; [discriminate|].
  assert (Hne : a :: s0 <> []) by discriminate.
  destruct (exists_last Hne) as [s' [x ->]].
  rewrite endswith_snoc. intros E. apply Ascii.eqb_eq in E. subst.
  now exists s'.
Qed.

Lemma component_not_startswith (b : pystr) :
  component_ok b -> startswith b [os_sep] = false.
Proof.
  intros [Hne Hfree]. destruct b as [|x b]; [contradiction|]. simpl.
  destruct (Ascii.eqb x os_sep) eqn:E; [|reflexivity].
  apply Ascii.eqb_eq in E. subst. exfalso. apply Hfree. now left.
Qed.

Lemma app_component_not_empty (x b : pystr) :
  component_ok b -> is_empty (x ++ b) = false.
Proof.
  intros [Hne _]. destruct x; [|reflexivity]. destruct b; [contradiction|reflexivity].
Qed.

Lemma app_component_not_endswith (x b : pystr) :
  component_ok b -> endswith (x ++ b) [os_sep] = false.
Proof.
  intros [Hne Hfree].
  destruct (exists_last Hne) as [b' [y ->]].
  rewrite app_assoc, endswith_snoc.
  destruct (Ascii.eqb y os_sep) eqn:E; [|reflexivity].
  apply Ascii.eqb_eq in E. subst. exfalso. apply Hfree.
  apply in_or_app. right. now left.
Qed.

Lemma os_path_join_cons (r b : pystr) (ps : list pystr) :
  os_path_join r (b :: ps) =
    os_path_join
      (if startswith b [os_sep] then b
       else if is_empty r || endswith r [os_sep] then r ++ b
       else r ++ [os_sep] ++ b) ps.
Proof. reflexivity. Qed.

(** [os.path.join] on components that are not empty and hold no slash:
  the root, one separator unless the root is empty or ends with one, and
  the components joined by slashes. *)
Lemma os_path_join_components (r : pystr) (parts : list pystr) :
  Forall component_ok parts -> parts <> [] ->
  os_path_join r parts =
    r ++ (if is_empty r || endswith r [os_sep] then [] else [os_sep])
      ++ join [slash] parts.
Proof.
  intros Hok. revert r. induction Hok as [|b ps Hb Hps IH]; intros r Hne.
  - contradiction.
  - rewrite os_path_join_cons, (component_not_startswith b Hb).
    destruct ps as [|q ps].
    + simpl. destruct (is_empty r || endswith r [os_sep]); reflexivity.
    + rewrite IH by discriminate. rewrite (join_cons slash b) by discriminate.
      destruct (is_empty r || endswith r [os_sep]).
      * rewrite app_component_not_empty, app_component_not_endswith by exact Hb.
        simpl. now rewrite <- app_assoc.
      * rewrite (app_assoc r [os_sep] b).
        rewrite app_component_not_empty, app_component_not_endswith by exact Hb.
        simpl. now rewrite <- !app_assoc.
Qed.

Lemma to_os_path_segments (p r : pystr) :
  to_os_path p r = os_path_join r (segments p).
Proof.
  unfold to_os_path. change (drop_empty (split slash (strip slash p)))
    with (segments (strip slash p)). now rewrite segments_strip.
Qed.

Lemma to_api_path_segments (o r : pystr) :
  to_api_path o r =
    join [slash]
      (segments (if startswith o r then slice_from (length r) o else o)).
Proof.
  unfold to_api_path.
  set (o' := if startswith o r then slice_from (length r) o else o).
  change (drop_empty (split os_sep (strip os_sep o')))
    with (segments (strip slash o')). now rewrite segments_strip.
Qed.

(** Whatever the root, the pieces of the file-system path are the pieces
  of the root followed by the pieces of the API path. *)
Lemma segments_to_os_path (p r : pystr) :
  segments (to_os_path p r) = segments r ++ segments p.
Proof.
  rewrite to_os_path_segments.
  pose proof (segments_ok p) as Hok.
  destruct (segments p) as [|b ps] eqn:Ep.
  - simpl. now rewrite app_nil_r.
  - rewrite os_path_join_components by (auto; discriminate).
    destruct (is_empty r) eqn:Er.
    + destruct r; [|discriminate]. cbn [app orb]. now apply segments_join.
    + cbn [orb]. destruct (endswith r [os_sep]) eqn:E.
      * apply endswith_inv in E. destruct E as [r' ->].
        cbn [app]. rewrite <- app_assoc. cbn [app].
        rewrite segments_app_sep, segments_snoc_sep, segments_join; auto.
      * cbn [app]. rewrite segments_app_sep, segments_join; auto.
Qed.

Lemma segments_to_api_path (o r : pystr) :
  segments (to_api_path o r) =
    segments (if startswith o r then slice_from (length r) o else o).
Proof.
  rewrite to_api_path_segments. apply segments_join, segments_ok.
Qed.

Lemma to_api_path_to_os_path (p r : pystr) :
  to_api_path (to_os_path p r) r = join [slash] (segments p).
Proof.
  rewrite to_api_path_segments, to_os_path_segments.
  pose proof (segments_ok p) as Hok.
  destruct (segments p) as [|b ps] eqn:Ep.
  - cbn [os_path_join].
    pose proof (startswith_app r []) as Hs.
    pose proof (slice_from_app r []) as Hd.
    rewrite app_nil_r in Hs, Hd. now rewrite Hs, Hd.
  - rewrite os_path_join_components by (auto; discriminate).
    rewrite startswith_app, slice_from_app.
    destruct (is_empty r || endswith r [os_sep]); cbn [app].
    + now rewrite segments_join.
    + now rewrite segments_cons_sep, segments_join.
Qed.

Lemma join_flat_map (a : pystr) (l : list pystr) :
  join [slash] (a :: l) = a ++ flat_map (cons slash) l.
Proof.
  revert a. induction l as [|b l IH]; intros a.
  - simpl. now rewrite app_nil_r.
  - rewrite join_cons by discriminate. rewrite IH. reflexivity.
Qed.

Lemma collapse_cons_other (x : ascii) (s : pystr) :
  Ascii.eqb x slash = false ->
  collapse_slashes (x :: s) = x :: collapse_slashes s.
Proof. intros E. destruct s; simpl; [reflexivity|]. now rewrite E. Qed.

Lemma collapse_slash_slash (s : pystr) :
  collapse_slashes (slash :: slash :: s) = collapse_slashes (slash :: s).
Proof. reflexivity. Qed.

Lemma collapse_slash_other (y : ascii) (s : pystr) :
  Ascii.eqb y slash = false ->
  collapse_slashes (slash :: y :: s) = slash :: collapse_slashes (y :: s).
Proof.
  intros E. cbn [collapse_slashes]. rewrite E. reflexivity.
Qed.

Lemma split_cons_other (x : ascii) (s q : pystr) (qs : list pystr) :
  Ascii.eqb x slash = false -> split slash s = q :: qs ->
  split slash (x :: s) = (x :: q) :: qs.
Proof. intros E H. cbn [split]. now rewrite E, H. Qed.

Lemma split_cons_sep (s : pystr) :
  split slash (slash :: s) = [] :: split slash s.
Proof. reflexivity. Qed.

(** Stripping the trailing slashes of a collapsed path, read off the
  pieces of the path: the first piece, then the non-empty ones, each
  after one slash. *)
Lemma rstrip_collapse (p : pystr) :
  forall q qs, split slash p = q :: qs ->
  rstrip slash (collapse_slashes p) = q ++ flat_map (cons slash) (drop_empty qs).
Proof.
  induction p as [|x p IH]; intros q qs Hs.
  - injection Hs as <- <-. reflexivity.
  - destruct (Ascii.eqb x slash) eqn:E.
    + apply Ascii.eqb_eq in E. subst x.
      rewrite split_cons_sep in Hs. injection Hs as <- <-.
      destruct p as [|y p'].
      * reflexivity.
      * destruct (Ascii.eqb y slash) eqn:Ey.
        -- apply Ascii.eqb_eq in Ey. subst y.
           rewrite collapse_slash_slash.
           rewrite (IH [] (split slash p') (split_cons_sep p')).
           rewrite split_cons_sep. reflexivity.
        -- rewrite collapse_slash_other by exact Ey.
           pose proof (split_not_nil slash p') as Hn.
           destruct (split slash p') as [|q' qs'] eqn:Ep; [contradiction|].
           pose proof (split_cons_other y p' q' qs' Ey Ep) as Hy.
           rewrite Hy. cbn [rstrip]. rewrite (IH _ _ Hy). reflexivity.
    + rewrite collapse_cons_other by exact E.
      pose proof (split_not_nil slash p) as Hn.
      destruct (split slash p) as [|q' qs'] eqn:Ep; [contradiction|].
      rewrite (split_cons_other x p q' qs' E Ep) in Hs.
      injection Hs as <- <-.
      cbn [rstrip]. rewrite E. cbn [andb]. rewrite (IH _ _ eq_refl).
      reflexivity.
Qed.

Lemma lstrip_collapse (p : pystr) :
  lstrip slash (collapse_slashes p) = collapse_slashes (lstrip slash p).
Proof.
  induction p as [|x p IH]; [reflexivity|].
  destruct (Ascii.eqb x slash) eqn:E.
  - apply Ascii.eqb_eq in E. subst x.
    change (lstrip slash (slash :: p)) with (lstrip slash p).
    destruct p as [|y p']; [reflexivity|].
    destruct (Ascii.eqb y slash) eqn:Ey.
    + apply Ascii.eqb_eq in Ey. subst y.
      rewrite collapse_slash_slash. exact IH.
    + rewrite collapse_slash_other by exact Ey.
      change (lstrip slash (slash :: ?s)) with (lstrip slash s).
      exact IH.
  - rewrite collapse_cons_other by exact E.
    cbn [lstrip]. rewrite E. now rewrite collapse_cons_other.
Qed.

Lemma lstrip_head (s : pystr) :
  match lstrip slash s with
  | [] => True
  | x :: _ => Ascii.eqb x slash = false
  end.
Proof.
  induction s as [|x s IH]; [exact I|].
  cbn [lstrip]. destruct (Ascii.eqb x slash) eqn:E; [exact IH|exact E].
Qed.

(** The two readings of the normal form agree: collapsing and stripping
  the slashes of a path gives its non-empty pieces joined by a slash. *)
Lemma normalize_slashes_segments (p : pystr) :
  normalize_slashes p = join [slash] (segments p).
Proof.
  unfold normalize_slashes, strip. rewrite lstrip_collapse.
  rewrite <- (segments_lstrip p).
  pose proof (lstrip_head p) as Hh.
  destruct (lstrip slash p) as [|x s]; [reflexivity|].
  pose proof (split_not_nil slash s) as Hn.
  destruct (split slash s) as [|q qs] eqn:Es; [contradiction|].
  pose proof (split_cons_other x s q qs Hh Es) as Hx.
  rewrite (rstrip_collapse _ _ _ Hx).
  unfold segments. rewrite Hx. cbn [drop_empty List.filter is_empty negb].
  now rewrite join_flat_map.
Qed.

Lemma startswith_iff (s pre : pystr) :
  startswith s pre = true <-> exists rest, s = pre ++ rest.
Proof.
  split.
  - intros H. eexists. now apply startswith_split.
  - intros [rest ->]. apply startswith_app.
Qed.

Lemma segments_app_boundary (r rest : pystr) :
  at_boundary r rest = true ->
  segments (r ++ rest) = segments r ++ segments rest.
Proof.
  unfold at_boundary. intros H.
  apply orb_prop in H. destruct H as [H|H];
    [apply orb_prop in H; destruct H as [H|H];
     [apply orb_prop in H; destruct H as [H|H]|]|].
  - destruct r; [reflexivity|discriminate].
  - apply endswith_inv in H. destruct H as [r' ->].
    rewrite <- app_assoc. cbn [app].
    now rewrite segments_app_sep, segments_snoc_sep.
  - destruct rest; [|discriminate]. now rewrite !app_nil_r.
  - destruct rest as [|x rest]; [discriminate|]. cbn [startswith] in H.
    apply andb_prop in H. destruct H as [E _]. apply Ascii.eqb_eq in E.
    subst x. now rewrite segments_app_sep, segments_cons_sep.
Qed.

(** C7, first direction: an API path taken to the file system and back
  comes back with its runs of slashes collapsed and its leading and
  trailing slashes removed, whatever the root. *)
Lemma to_api_path_to_os_path_normalizes (p r : pystr) :
  to_api_path (to_os_path p r) r = normalize_slashes p.
Proof. now rewrite to_api_path_to_os_path, normalize_slashes_segments. Qed.

(** C7, second direction: a file-system path under the root, with the
  root ending at a component boundary, comes back equal up to the same
  normal form. *)
Lemma to_os_path_to_api_path_normalizes (o r : pystr) :
  startswith o r = true ->
  at_boundary r (slice_from (length r) o) = true ->
  normalize_slashes (to_os_path (to_api_path o r) r) = normalize_slashes o.
Proof.
  intros Hs Hb. rewrite !normalize_slashes_segments. f_equal.
  rewrite segments_to_os_path, segments_to_api_path, Hs.
  rewrite (startswith_split o r Hs) at 2.
  symmetry. now apply segments_app_boundary.
Qed.

(** C7 (as amended): [to_api_path (to_os_path p r) r] is [p] with duplicate
  and leading/trailing slashes collapsed, for every [p] and [r]; the other
  way round, [to_os_path (to_api_path o r) r] equals [o] up to that
  normalization when [o] starts with [r] and [r] ends at a component
  boundary of [o]. *)
Theorem path_mapping_round_trip (p o r : pystr) :
  to_api_path (to_os_path p r) r = normalize_slashes p
  /\ (startswith o r = true ->
      at_boundary r (slice_from (length r) o) = true ->
      normalize_slashes (to_os_path (to_api_path o r) r)
        = normalize_slashes o).
Proof.
  split.
  - apply to_api_path_to_os_path_normalizes.
  - apply to_os_path_to_api_path_normalizes.
Qed.

Lemma path_mapping_round_trip_witness :
  to_api_path (to_os_path (py "//nb//a.ipynb/") (py "/srv")) (py "/srv")
    = py "nb/a.ipynb"
  /\ normalize_slashes
       (to_os_path (to_api_path (py "/srv/nb//a.ipynb") (py "/srv")) (py "/srv"))
     = normalize_slashes (py "/srv/nb//a.ipynb").
Proof.
  destruct (path_mapping_round_trip
              (py "//nb//a.ipynb/") (py "/srv/nb//a.ipynb") (py "/srv"))
    as [H1 H2].
  split; [exact H1|apply H2; reflexivity].
Defined.

(** C7 as stated fails in the second direction: the root ["/tmp/foo"] is cut
  off ["/tmp/foobar/x"] in the middle of a component, and the way back puts
  a separator there. *)
Lemma path_mapping_not_inverse :
  to_api_path (py "/tmp/foobar/x") (py "/tmp/foo") = py "bar/x"
  /\ to_os_path (py "bar/x") (py "/tmp/foo") = py "/tmp/foo/bar/x"
  /\ normalize_slashes
       (to_os_path (to_api_path (py "/tmp/foobar/x") (py "/tmp/foo"))
          (py "/tmp/foo"))
     <> normalize_slashes (py "/tmp/foobar/x").
Proof. split; [reflexivity|split; [reflexivity|discriminate]]. Qed.

(** A path outside the root does not come back either: the root is
  ignored on the way out and prepended on the way back. *)
Example path_outside_root_not_inverse :
  normalize_slashes
    (to_os_path (to_api_path (py "/a/b") (py "/c")) (py "/c"))
  = py "c/a/b".
Proof. reflexivity. Qed.

(** C10: [to_api_path] removes the root by literal prefix match.  The test
  is the raw one: the path starts with the root exactly when it is the root
  followed by something.  When it does, the result is what follows the
  root, wherever the root ends, with its runs of slashes collapsed and its
  leading and trailing slashes removed; so ["/tmp/foo"] is cut off
  ["/tmp/foobar/x"] and leaves ["bar/x"].  When it does not, the result is
  the whole path in that normal form, the root ignored; nothing is
  raised. *)
Theorem to_api_path_literal_prefix :
  (forall os_path root,
     startswith os_path root = true <-> exists rest, os_path = root ++ rest)
  /\ (forall root rest,
        to_api_path (root ++ rest) root = normalize_slashes rest)
  /\ (forall os_path root,
        startswith os_path root = false ->
        to_api_path os_path root = normalize_slashes os_path)
  /\ to_api_path (py "/tmp/foobar/x") (py "/tmp/foo") = py "bar/x".
Proof.
  split; [exact startswith_iff|]. split; [|split].
  - intros root rest.
    now rewrite to_api_path_segments, startswith_app, slice_from_app,
      normalize_slashes_segments.
  - intros os_path root H.
    now rewrite to_api_path_segments, H, normalize_slashes_segments.
  - reflexivity.
Qed.

Lemma to_api_path_literal_prefix_witness :
  to_api_path (py "/home/u/nb") (py "/srv") = py "home/u/nb".
Proof.
  destruct to_api_path_literal_prefix as [_ [_ [H _]]].
  apply (H (py "/home/u/nb") (py "/srv")). reflexivity.
Defined.

End PathFacts.

(* ===================================================================== *)
(** * Properties of check_version *)
(* ===================================================================== *)

Section VersionFacts.
Import Py Version.

Lemma str_eqb_refl (a : pystr) : str_eqb a a = true.
Proof. induction a; simpl; [reflexivity|]. now rewrite Ascii.eqb_refl. Qed.

Lemma nat_of_ascii_neq (x y : ascii) :
  Ascii.eqb x y = false -> nat_of_ascii x <> nat_of_ascii y.
Proof.
  intros E H. apply Ascii.eqb_neq in E. apply E.
  rewrite <- (ascii_nat_embedding x), <- (ascii_nat_embedding y).
  now rewrite H.
Qed.

(** Two different strings are ordered one way or the other. *)
Lemma str_ltb_total (a b : pystr) :
  str_eqb a b = false -> str_ltb a b = false -> str_ltb b a = true.
Proof.
  revert b. induction a as [|x a IH]; intros [|y b]; simpl; try discriminate;
    try reflexivity.
  rewrite (Ascii.eqb_sym y x).
  destruct (Ascii.eqb x y) eqn:E; simpl.
  - apply IH.
  - intros _ H. apply nat_of_ascii_neq in E.
    apply Nat.ltb_ge in H. apply Nat.ltb_lt. lia.
Qed.

Lemma str_ltb_irrefl_eq (a b : pystr) :
  str_eqb a b = true -> str_ltb a b = false.
Proof.
  revert b. induction a as [|x a IH]; intros [|y b]; simpl; try discriminate;
    try reflexivity.
  intros H. apply andb_prop in H. destruct H as [E H].
  rewrite E. now apply IH.
Qed.

(** The dictionary order against [==] and [<] on strings. *)
Lemma text_compare_spec (a b : pystr) :
  text_compare a b
  = if str_eqb a b then Eq else if str_ltb a b then Lt else Gt.
Proof.
  revert b. induction a as [|x a IH]; intros [|y b]; try reflexivity.
  cbn [text_compare str_eqb str_ltb].
  destruct (Ascii.eqb x y) eqn:E.
  - apply Ascii.eqb_eq in E. subst y.
    assert (Hc : Ascii.compare x x = Eq) by (unfold Ascii.compare; apply N.compare_refl).
    rewrite Hc. cbn [andb]. apply IH.
  - cbn [andb]. pose proof (nat_of_ascii_neq x y E) as Hn.
    unfold Ascii.compare. unfold nat_of_ascii in *.
    destruct (N.compare_spec (N_of_ascii x) (N_of_ascii y)) as [He|Hl|Hg].
    + rewrite He in Hn. contradiction.
    + replace (N.to_nat (N_of_ascii x) <? N.to_nat (N_of_ascii y)) with true;
        [reflexivity|]. symmetry. apply Nat.ltb_lt. lia.
    + replace (N.to_nat (N_of_ascii x) <? N.to_nat (N_of_ascii y)) with false;
        [reflexivity|]. symmetry. apply Nat.ltb_ge. lia.
Qed.

Lemma comp_eq_compare (x y : component) :
  comp_eq x y = true <-> comp_compare x y = Some Eq.
Proof.
  destruct x as [a|a], y as [b|b]; simpl; try (split; discriminate).
  - rewrite N.eqb_eq, <- N.compare_eq_iff. split; congruence.
  - rewrite text_compare_spec. destruct (str_eqb a b); [tauto|].
    destruct (str_ltb a b); split; discriminate.
Qed.

Lemma comp_compare_lt (x y : component) :
  comp_compare x y = Some Lt ->
  comp_eq x y = false /\ comp_lt x y = Ok true.
Proof.
  destruct x as [a|a], y as [b|b]; simpl; try discriminate.
  - intros H. injection H as H. split.
    + apply N.eqb_neq. intros ->. now rewrite N.compare_refl in H.
    + f_equal. now apply N.ltb_lt, N.compare_lt_iff.
  - rewrite text_compare_spec. destruct (str_eqb a b); [discriminate|].
    destruct (str_ltb a b); [auto|discriminate].
Qed.

Lemma comp_compare_gt (x y : component) :
  comp_compare x y = Some Gt ->
  comp_eq x y = false /\ comp_lt x y = Ok false /\ comp_gt x y = Ok true.
Proof.
  destruct x as [a|a], y as [b|b]; simpl; try discriminate.
  - intros H. injection H as H. apply N.compare_gt_iff in H. repeat split.
    + apply N.eqb_neq. lia.
    + f_equal. apply N.ltb_ge. lia.
    + f_equal. now apply N.ltb_lt.
  - rewrite text_compare_spec. destruct (str_eqb a b) eqn:E; [discriminate|].
    destruct (str_ltb a b) eqn:L; [discriminate|].
    intros _. repeat split. f_equal. now apply str_ltb_total.
Qed.

Lemma comp_compare_none (x y : component) :
  comp_compare x y = None ->
  comp_eq x y = false
  /\ exists e, comp_lt x y = Raise e /\ exc_type e = TypeError.
Proof.
  destruct x as [a|a], y as [b|b]; simpl; try discriminate; intros _;
    (split; [reflexivity|eexists; split; reflexivity]).
Qed.

(** The three list comparisons of Python against the one ordering. *)
Lemma list_comparisons_spec (v w : list component) :
  match version_compare v w with
  | Some Eq => list_eq v w = true
  | Some Lt => list_eq v w = false /\ list_lt v w = Ok true
  | Some Gt =>
      list_eq v w = false /\ list_lt v w = Ok false /\ list_gt v w = Ok true
  | None =>
      list_eq v w = false
      /\ exists e, list_lt v w = Raise e /\ exc_type e = TypeError
  end.
Proof.
  revert w. induction v as [|x v IH]; intros [|y w]; simpl; auto.
  destruct (comp_compare x y) as [[| |]|] eqn:C.
  - apply comp_eq_compare in C. rewrite C. simpl. apply IH.
  - apply comp_compare_lt in C. destruct C as [-> ->]. auto.
  - apply comp_compare_gt in C. destruct C as [-> [-> ->]]. auto.
  - apply comp_compare_none in C. destruct C as [-> [e [-> He]]]. eauto.
Qed.

Lemma _cmp_spec (v w : list component) :
  match version_compare v w with
  | Some Eq => _cmp (Some v) (Some w) = Ok (Some 0%Z)
  | Some Lt => _cmp (Some v) (Some w) = Ok (Some (-1)%Z)
  | Some Gt => _cmp (Some v) (Some w) = Ok (Some 1%Z)
  | None =>
      exists e, _cmp (Some v) (Some w) = Raise e /\ exc_type e = TypeError
  end.
Proof.
  pose proof (list_comparisons_spec v w) as H. unfold _cmp, get_version.
  destruct (version_compare v w) as [[| |]|].
  - now rewrite H.
  - destruct H as [-> ->]. reflexivity.
  - destruct H as [-> [-> ->]]. reflexivity.
  - destruct H as [-> [e [-> He]]]. eauto.
Qed.

Lemma LooseVersion_ge_spec (v w : list component) :
  match version_compare v w with
  | Some Lt => LooseVersion_ge (Some v) (Some w) = Ok false
  | Some _ => LooseVersion_ge (Some v) (Some w) = Ok true
  | None =>
      exists e,
        LooseVersion_ge (Some v) (Some w) = Raise e /\ exc_type e = TypeError
  end.
Proof.
  pose proof (_cmp_spec v w) as H. unfold LooseVersion_ge.
  destruct (version_compare v w) as [[| |]|]; try now rewrite H.
  destruct H as [e [-> He]]. eauto.
Qed.

(** The object made from a string that is not empty holds the parsed
  components. *)
Lemma LooseVersion_nonempty (v : pystr) :
  v <> [] -> LooseVersion v = Some (parse v).
Proof. destruct v; [contradiction|reflexivity]. Qed.

(** The object made from the empty string has no [version]: comparing it
  raises [AttributeError], which [check_version] does not catch. *)
Lemma check_version_empty (v : pystr) :
  check_version [] v = Raise no_version_attribute
  /\ (v <> [] -> check_version v [] = Raise no_version_attribute).
Proof.
  split; [reflexivity|]. intros Hv.
  unfold check_version. rewrite (LooseVersion_nonempty v Hv). reflexivity.
Qed.

(** *** The parse of [LooseVersion] against the reading of a version *)

Ltac each_character c :=
  destruct c as [[] [] [] [] [] [] [] []].

Lemma kind_of_classify (c : ascii) :
  classify c = match kind_of c with
               | None => Dot
               | Some k => class_of k
               end.
Proof. each_character c; reflexivity. Qed.

Lemma digit_value_spec (c : ascii) :
  classify c = Digit -> (N_of_ascii c - 48)%N = digit_value c.
Proof. each_character c; intros H; try discriminate H; reflexivity. Qed.

Lemma same_class_kinds (k k' : run_kind) :
  same_class (class_of k) (class_of k') = run_kind_eqb k' k.
Proof. destruct k, k'; reflexivity. Qed.

Lemma same_class_dot (k : char_class) : same_class k Dot = false.
Proof. destruct k; reflexivity. Qed.

Lemma int_of_digits_snoc (d : pystr) (c : ascii) :
  int_of_digits (d ++ [c])
  = (10 * int_of_digits d + (N_of_ascii c - 48))%N.
Proof. unfold int_of_digits. now rewrite fold_left_app. Qed.

(** [int] on a run of digits gives the number the digits write. *)
Lemma int_of_digits_units_first (r : pystr) :
  Forall (fun c => classify c = Digit) r ->
  int_of_digits (rev r) = units_first r.
Proof.
  induction 1 as [|c r Hc Hr IH]; [reflexivity|].
  cbn [rev units_first]. rewrite int_of_digits_snoc, IH, (digit_value_spec c Hc).
  lia.
Qed.

(** What [convert] makes of a run of one kind. *)
Lemma convert_close (k : run_kind) (r : pystr) :
  r <> [] -> Forall (fun c => classify c = class_of k) r ->
  [convert (rev r)] = close (Some (k, r)).
Proof.
  intros Hne Hr.
  assert (Hhead : exists c t, rev r = c :: t /\ classify c = class_of k).
  { destruct (rev r) as [|c t] eqn:E.
    - apply (f_equal (@rev ascii)) in E. rewrite rev_involutive in E.
      now subst r.
    - exists c, t. split; [reflexivity|].
      apply (proj1 (List.Forall_forall _ r) Hr), in_rev.
      rewrite E. now left. }
  destruct Hhead as [c [t [E Hc]]].
  unfold convert. rewrite E, Hc, <- E.
  destruct k; cbn [class_of close]; try reflexivity.
  now rewrite int_of_digits_units_first.
Qed.

Lemma component_split_dot (c : ascii) (s : pystr) :
  kind_of c = None -> component_split (c :: s) = component_split s.
Proof.
  intros Hc. pose proof (kind_of_classify c) as H. rewrite Hc in H.
  cbn [component_split]. now rewrite H.
Qed.

Lemma component_split_start (c : ascii) (k : run_kind) (s : pystr) :
  kind_of c = Some k -> component_split (c :: s) = extend_run [c] k s.
Proof.
  intros Hc. pose proof (kind_of_classify c) as H. rewrite Hc in H.
  cbn [component_split]. rewrite H. unfold extend_run.
  destruct k; reflexivity.
Qed.

Lemma extend_run_dot (run : pystr) (k : run_kind) (c : ascii) (s : pystr) :
  kind_of c = None ->
  extend_run run k (c :: s) = run :: component_split s.
Proof.
  intros Hc. unfold extend_run.
  rewrite (component_split_dot c s Hc). cbn [head_class].
  pose proof (kind_of_classify c) as H. rewrite Hc in H. rewrite H.
  rewrite same_class_dot. now destruct (component_split s).
Qed.

Lemma extend_run_other (run : pystr) (k k' : run_kind) (c : ascii)
    (s : pystr) :
  kind_of c = Some k' -> run_kind_eqb k' k = false ->
  extend_run run k (c :: s) = run :: extend_run [c] k' s.
Proof.
  intros Hc Hk. unfold extend_run at 1.
  rewrite (component_split_start c k' s Hc). cbn [head_class].
  pose proof (kind_of_classify c) as H. rewrite Hc in H. rewrite H.
  rewrite same_class_kinds, Hk. now destruct (extend_run [c] k' s).
Qed.

Lemma extend_run_same (run : pystr) (k : run_kind) (c : ascii) (s : pystr) :
  kind_of c = Some k ->
  extend_run run k (c :: s) = extend_run (run ++ [c]) k s.
Proof.
  intros Hc. unfold extend_run at 1.
  rewrite (component_split_start c k s Hc). cbn [head_class].
  pose proof (kind_of_classify c) as H. rewrite Hc in H. rewrite H.
  rewrite same_class_kinds.
  replace (run_kind_eqb k k) with true by now destruct k.
  unfold extend_run.
  destruct (head_class s) as [k'|]; [|reflexivity].
  destruct (component_split s) as [|t ts]; [reflexivity|].
  destruct (same_class (class_of k) k'); [|reflexivity].
  now rewrite <- app_assoc.
Qed.

Lemma run_kind_eqb_eq (a b : run_kind) : run_kind_eqb a b = true -> a = b.
Proof. destruct a, b; try discriminate; reflexivity. Qed.

(** Reading from left to right gives what [parse] computes, also from the
  middle of a run. *)
Lemma read_parse (s : pystr) :
  read None s = map convert (component_split s)
  /\ (forall k r,
        r <> [] -> Forall (fun c => classify c = class_of k) r ->
        read (Some (k, r)) s = map convert (extend_run (rev r) k s)).
Proof.
  induction s as [|c s [IH0 IH1]].
  - split; [reflexivity|]. intros k r Hne Hr.
    cbn [read]. unfold extend_run. cbn [head_class map].
    symmetry. now apply convert_close.
  - assert (Hstart : forall k, kind_of c = Some k ->
              read (Some (k, [c])) s = map convert (component_split (c :: s))).
    { intros k Hc. rewrite (component_split_start c k s Hc).
      apply (IH1 k [c]); [discriminate|].
      constructor; [|constructor].
      pose proof (kind_of_classify c) as H. now rewrite Hc in H. }
    split.
    + cbn [read]. destruct (kind_of c) as [k|] eqn:Hc.
      * now apply Hstart.
      * rewrite (component_split_dot c s Hc). exact IH0.
    + intros k r Hne Hr. cbn [read].
      destruct (kind_of c) as [k'|] eqn:Hc.
      * destruct (run_kind_eqb k' k) eqn:Hk.
        -- apply run_kind_eqb_eq in Hk. subst k'.
           rewrite (extend_run_same (rev r) k c s Hc).
           apply (IH1 k (c :: r)); [discriminate|].
           constructor; [|exact Hr].
           pose proof (kind_of_classify c) as H. now rewrite Hc in H.
        -- rewrite (extend_run_other (rev r) k k' c s Hc Hk).
           cbn [map].
           change (convert (rev r) :: ?t) with ([convert (rev r)] ++ t).
           f_equal; [symmetry; now apply convert_close|].
           rewrite <- (component_split_start c k' s Hc). now apply Hstart.
      * rewrite (extend_run_dot (rev r) k c s Hc). cbn [map].
        change (convert (rev r) :: ?t) with ([convert (rev r)] ++ t).
        f_equal; [symmetry; now apply convert_close|exact IH0].
Qed.

Lemma parse_version_fields (v : pystr) : parse v = version_fields v.
Proof. symmetry. apply (proj1 (read_parse v)). Qed.

(** [check_version] on strings that are not empty, against the reading of
  the two versions. *)
Lemma check_version_fields (v check : pystr) :
  v <> [] -> check <> [] ->
  match version_compare (version_fields v) (version_fields check) with
  | Some Lt =>
      LooseVersion_ge (LooseVersion v) (LooseVersion check) = Ok false
      /\ check_version v check = Ok false
  | Some _ =>
      LooseVersion_ge (LooseVersion v) (LooseVersion check) = Ok true
      /\ check_version v check = Ok true
  | None =>
      (exists e,
         LooseVersion_ge (LooseVersion v) (LooseVersion check) = Raise e
         /\ exc_type e = TypeError)
      /\ check_version v check = Ok true
  end.
Proof.
  intros Hv Hc. unfold check_version.
  rewrite (LooseVersion_nonempty v Hv), (LooseVersion_nonempty check Hc).
  rewrite !parse_version_fields.
  pose proof (LooseVersion_ge_spec (version_fields v) (version_fields check))
    as H.
  destruct (version_compare (version_fields v) (version_fields check))
    as [[| |]|]; try (rewrite H; split; reflexivity).
  destruct H as [e [-> He]]. unfold isinstance. rewrite He.
  split; [eauto|reflexivity].
Qed.

(** C8: for version strings that are not empty, [check_version v check]
  does not raise.  Reading a version as its fields (runs of digits taken as
  numbers, runs of letters and of other characters as text, dots between
  them), it tells whether [v] is greater than or equal to [check] field by
  field, numbers by value and text alphabetically; where the two versions
  have no order, a number standing against a text, the comparison of
  [LooseVersion] raises [TypeError] and the answer is [True]; and every
  exception that comparison raises is such a [TypeError]. *)
Theorem check_version_spec (v check : pystr) :
  v <> [] -> check <> [] ->
  check_version v check =
    Ok (match version_compare (version_fields v) (version_fields check) with
        | Some Lt => false
        | Some Eq | Some Gt => true
        | None => true
        end)
  /\ (version_compare (version_fields v) (version_fields check) = None ->
      exists e,
        LooseVersion_ge (LooseVersion v) (LooseVersion check) = Raise e
        /\ exc_type e = TypeError)
  /\ (forall e,
        LooseVersion_ge (LooseVersion v) (LooseVersion check) = Raise e ->
        exc_type e = TypeError /\ check_version v check = Ok true).
Proof.
  intros Hv Hc. pose proof (check_version_fields v check Hv Hc) as H.
  destruct (version_compare (version_fields v) (version_fields check))
    as [[| |]|].
  - destruct H as [Hge Hcv]. rewrite Hge, Hcv.
    repeat split; discriminate.
  - destruct H as [Hge Hcv]. rewrite Hge, Hcv.
    repeat split; discriminate.
  - destruct H as [Hge Hcv]. rewrite Hge, Hcv.
    repeat split; discriminate.
  - destruct H as [[e [Hge He]] Hcv]. rewrite Hge, Hcv.
    split; [reflexivity|]. split; [eauto|].
    intros e' [= <-]. auto.
Qed.

Lemma check_version_spec_witness :
  check_version (py "1.2.dev") (py "1.2.3") = Ok true
  /\ check_version (py "1.10.0") (py "1.9") = Ok true
  /\ check_version (py "1.2") (py "1.2.3") = Ok false.
Proof.
  split; [|split].
  - destruct (check_version_spec (py "1.2.dev") (py "1.2.3")) as [H _];
      [discriminate|discriminate|exact H].
  - destruct (check_version_spec (py "1.10.0") (py "1.9")) as [H _];
      [discriminate|discriminate|exact H].
  - destruct (check_version_spec (py "1.2") (py "1.2.3")) as [H _];
      [discriminate|discriminate|exact H].
Defined.

Example check_version_newer : check_version (py "1.10.0") (py "1.9") = Ok true.
Proof. reflexivity. Qed.

Example check_version_older : check_version (py "1.2") (py "1.2.3") = Ok false.
Proof. reflexivity. Qed.

Example check_version_letters :
  check_version (py "1.2a") (py "1.2b") = Ok false.
Proof. reflexivity. Qed.

End VersionFacts.

(* ===================================================================== *)
(** * Properties of ensure_async and run_sync *)
(* ===================================================================== *)

Section BridgeFacts.
Import Py Bridge.
Local Open Scope string_scope.
Local Open Scope list_scope.

Lemma ensure_async_awaitable (obj : pyobj) (w : world) :
  isawaitable obj = true ->
  ensure_async obj w =
    match await obj w with
    | (Ok r, w') => (Ok r, w')
    | (Raise e, w') =>
        if isinstance e RuntimeError
           && String.eqb (exc_str e) "cannot reuse already awaited coroutine"
        then (Ok obj, w')
        else (Raise e, w')
    end.
Proof.
  intros Ha. unfold ensure_async. rewrite Ha.
  unfold bind, try_except. destruct (await obj w) as [[r|e] w']; [reflexivity|].
  destruct (isinstance e RuntimeError); [|reflexivity].
  cbn [andb].
  destruct (String.eqb (exc_str e) "cannot reuse already awaited coroutine");
    reflexivity.
Qed.

(** C5: a value that is not awaitable comes back as it is from both
  functions, and the world is the same afterwards: nothing was waited for
  (no turn of a scheduler), nothing was run, and no event loop was created
  or made current. *)
Theorem plain_value_returned_unchanged (v : pyobj) (w : world) :
  isawaitable v = false ->
  ensure_async v w = (Ok v, w) /\ run_sync v w = (Ok v, w).
Proof.
  intros Hv. unfold ensure_async, run_sync. rewrite Hv. split; reflexivity.
Qed.

Lemma plain_value_returned_unchanged_witness :
  ensure_async (PStr "not async") (idle_world [] [])
    = (Ok (PStr "not async"), idle_world [] [])
  /\ run_sync (PStr "not async") (idle_world [] [])
     = (Ok (PStr "not async"), idle_world [] []).
Proof.
  apply (plain_value_returned_unchanged (PStr "not async") (idle_world [] [])).
  reflexivity.
Defined.

(** C2: when awaiting the input raises a [RuntimeError] that reads "cannot
  reuse already awaited coroutine", [ensure_async] does not raise: it
  returns the input object itself. *)
Theorem reuse_condition_returns_input (obj : pyobj) (w w' : world) (e : exn) :
  isawaitable obj = true ->
  await obj w = (Raise e, w') ->
  isinstance e RuntimeError = true ->
  exc_str e = "cannot reuse already awaited coroutine" ->
  ensure_async obj w = (Ok obj, w').
Proof.
  intros Ha Hw He Hs. rewrite ensure_async_awaitable by exact Ha.
  rewrite Hw, He, Hs. reflexivity.
Qed.

Lemma reuse_condition_returns_input_witness :
  ensure_async (PCoro 0)
    (idle_world [mk_coroutine (Ok (PInt 42)) 0 true] [])
  = (Ok (PCoro 0), idle_world [mk_coroutine (Ok (PInt 42)) 0 true] []).
Proof.
  apply (reuse_condition_returns_input (PCoro 0) _ _ cannot_reuse);
    reflexivity.
Defined.

Lemma drive_fresh_coroutine (w : world) (c : nat) (r : pyobj) :
  fresh_coroutine_returning w c r ->
  exists w',
    drive_coroutine c w = (Ok r, w')
    /\ is_completed w' (PCoro c) = true
    /\ futures w' = futures w
    /\ executed w' = c :: executed w.
Proof.
  intros [co [Hc [Hf Hb]]]. unfold drive_coroutine. rewrite Hc, Hf, Hb.
  eexists. split; [reflexivity|]. split; [|split; reflexivity].
  cbn [is_completed coros set_turns set_executed set_coros].
  rewrite list_lookup_insert_eq; [reflexivity|].
  now apply lookup_lt_Some in Hc.
Qed.

Lemma finish_completed (f : nat) (r : result pyobj) (w : world) :
  f < length (futures w) ->
  is_completed (snd (finish f r w)) (PFuture f) = true.
Proof.
  intros Hf. cbn [finish snd is_completed futures set_futures].
  now rewrite list_lookup_insert_eq.
Qed.

Lemma resolves_to_awaitable (w : world) (obj r : pyobj) :
  resolves_to w obj r -> isawaitable obj = true.
Proof. destruct obj; try contradiction; reflexivity. Qed.

(** Awaiting an object that resolves to [r] gives [r] and leaves the
  computation completed. *)
Lemma await_resolves (obj r : pyobj) (w : world) :
  resolves_to w obj r ->
  exists w', await obj w = (Ok r, w') /\ is_completed w' obj = true.
Proof.
  intros Hr.
  destruct obj as [| | |c|f]; try contradiction; cbn [resolves_to] in Hr.
  - destruct (drive_fresh_coroutine w c r Hr) as [w' [Hd [Hc _]]].
    exists w'. split; assumption.
  - cbn [await]. unfold wait_future.
    destruct (futures w !! f) as [[[c|n [r'|]]|[r'|]]|] eqn:Hf;
      try contradiction.
    + destruct (drive_fresh_coroutine w c r Hr) as [w' [Hd [_ [Hfu _]]]].
      rewrite Hd. eexists. split; [reflexivity|].
      apply (finish_completed f (Ok r) (set_turns (S (turns w')) w')).
      cbn [futures set_turns]. rewrite Hfu.
      now apply lookup_lt_Some in Hf.
    + subst r'. eexists. split; [reflexivity|].
      apply (finish_completed f (Ok r) (set_turns (turns w + n) w)).
      now apply lookup_lt_Some in Hf.
    + subst r'. exists w. split; [reflexivity|].
      cbn [is_completed]. now rewrite Hf.
Qed.



(** Resolving a coroutine a second time: no exception and no second run
  of the body, but what comes back is the coroutine object. *)
Lemma second_resolution_of_coroutine (w : world) (c : nat) (r : pyobj) :
  fresh_coroutine_returning w c r ->
  exists w1,
    ensure_async (PCoro c) w = (Ok r, w1)
    /\ ensure_async (PCoro c) w1 = (Ok (PCoro c), w1).
Proof.
  intros Hr. destruct (drive_fresh_coroutine w c r Hr) as [w1 [Hd [Hc _]]].
  exists w1. split.
  - rewrite ensure_async_awaitable by reflexivity. cbn [await]. now rewrite Hd.
  - rewrite ensure_async_awaitable by reflexivity. cbn [await].
    unfold drive_coroutine. cbn [is_completed] in Hc.
    destruct (coros w1 !! c) as [co|]; [|discriminate]. rewrite Hc.
    reflexivity.
Qed.


(** C1 fails on a coroutine, here one that returns 42: the first call
  gives 42, the second gives the coroutine object, where the comment in the
  code expects the coroutine's result. *)
Theorem second_resolution_returns_the_coroutine :
  let w0 := idle_world [mk_coroutine (Ok (PInt 42)) 0 false] [] in
  let w1 := snd (ensure_async (PCoro 0) w0) in
  ensure_async (PCoro 0) w0 = (Ok (PInt 42), w1)
  /\ ensure_async (PCoro 0) w1 = (Ok (PCoro 0), w1)
  /\ executed w1 = [0].
Proof. split; [reflexivity|split; reflexivity]. Qed.

(** Failures of the awaited computation that are not the reuse condition
  come out of [ensure_async] as they are. *)
Lemma ensure_async_propagates (obj : pyobj) (w w' : world) (e : exn) :
  isawaitable obj = true ->
  await obj w = (Raise e, w') ->
  isinstance e RuntimeError
    && String.eqb (exc_str e) "cannot reuse already awaited coroutine" = false ->
  ensure_async obj w = (Raise e, w').
Proof.
  intros Ha Hw Hc. rewrite ensure_async_awaitable by exact Ha.
  now rewrite Hw, Hc.
Qed.

Lemma get_event_loop_running (w : world) (l : nat) :
  running_loop w = Some l -> get_event_loop w = (Ok l, w).
Proof. intros H. unfold get_event_loop, bind, get. now rewrite H. Qed.

Lemma get_event_loop_current (w : world) (l : nat) :
  running_loop w = None -> current_loop w = Some l ->
  get_event_loop w = (Ok l, w).
Proof.
  intros Hr Hc. unfold get_event_loop, bind, get. rewrite Hr, Hc.
  cbn. now rewrite Hc.
Qed.

Lemma is_closed_lookup (w : world) (l : nat) (lp : event_loop) :
  loops w !! l = Some lp -> is_closed l w = (Ok (lp_closed lp), w).
Proof. intros H. unfold is_closed, bind, get. now rewrite H. Qed.

(** [run_sync] on an awaitable once [get_event_loop] has given an open
  loop: the second [try] statement of [wrapped] is all that is left. *)
Lemma run_sync_with_loop (obj : pyobj) (w : world) (l : nat) (lp : event_loop) :
  isawaitable obj = true ->
  get_event_loop w = (Ok l, w) ->
  loops w !! l = Some lp -> lp_closed lp = false ->
  run_sync obj w =
    match run_until_complete l obj w with
    | (Ok r, w') => (Ok r, w')
    | (Raise e, w') =>
        if isinstance e RuntimeError then
          if String.eqb (exc_str e) "This event loop is already running" then
            asyncio_ensure_future obj w'
          else (Raise unbound_result, w')
        else (Raise e, w')
    end.
Proof.
  intros Ha Hg Hl Hc. unfold run_sync, wrapped. rewrite Ha. cbn [negb].
  unfold bind at 1. unfold try_except_else. rewrite Hg.
  unfold bind at 1. rewrite (is_closed_lookup w l lp Hl), Hc.
  cbn [ret]. unfold bind at 1. cbn [ret].
  unfold bind at 1. unfold try_except.
  unfold bind at 1. cbn [read_local ret].
  unfold bind at 1.
  destruct (run_until_complete l obj w) as [[r|e] w']; [reflexivity|].
  destruct (isinstance e RuntimeError); [|reflexivity].
  destruct (String.eqb (exc_str e) "This event loop is already running").
  - unfold bind. destruct (asyncio_ensure_future obj w') as [[r|e'] w''];
      reflexivity.
  - reflexivity.
Qed.

(** A failure that is no [RuntimeError] comes out of [run_sync] as it
  is. *)
Lemma run_sync_propagates_other (obj : pyobj) (w w' : world) (l : nat)
    (lp : event_loop) (e : exn) :
  isawaitable obj = true ->
  get_event_loop w = (Ok l, w) ->
  loops w !! l = Some lp -> lp_closed lp = false ->
  run_until_complete l obj w = (Raise e, w') ->
  isinstance e RuntimeError = false ->
  run_sync obj w = (Raise e, w').
Proof.
  intros Ha Hg Hl Hc Hr He.
  rewrite (run_sync_with_loop obj w l lp Ha Hg Hl Hc), Hr, He. reflexivity.
Qed.

(** A [RuntimeError] with any other text than the busy one is caught, not
  raised again, and [return result] then fails on the unassigned local. *)
Lemma run_sync_loses_runtime_error (obj : pyobj) (w w' : world) (l : nat)
    (lp : event_loop) (e : exn) :
  isawaitable obj = true ->
  get_event_loop w = (Ok l, w) ->
  loops w !! l = Some lp -> lp_closed lp = false ->
  run_until_complete l obj w = (Raise e, w') ->
  isinstance e RuntimeError = true ->
  String.eqb (exc_str e) "This event loop is already running" = false ->
  run_sync obj w = (Raise unbound_result, w').
Proof.
  intros Ha Hg Hl Hc Hr He Hs.
  rewrite (run_sync_with_loop obj w l lp Ha Hg Hl Hc), Hr, He, Hs.
  reflexivity.
Qed.

(** C4 fails in [run_sync]: a coroutine that raises [RuntimeError("boom")]
  makes [ensure_async] raise that error, and [run_sync] raise an
  [UnboundLocalError] in its place. *)
Theorem run_sync_replaces_runtime_error :
  let boom := mk_exn RuntimeError "boom" in
  let w0 := idle_world [mk_coroutine (Raise boom) 0 false] [] in
  fst (ensure_async (PCoro 0) w0) = Raise boom
  /\ fst (run_sync (PCoro 0) w0) = Raise unbound_result
  /\ unbound_result <> boom.
Proof. split; [reflexivity|split; [reflexivity|discriminate]]. Qed.

Lemma run_until_complete_running (obj : pyobj) (w : world) (l : nat)
    (lp : event_loop) :
  running_loop w = Some l ->
  loops w !! l = Some lp -> lp_closed lp = false ->
  run_until_complete l obj w =
    (Raise (mk_exn RuntimeError "This event loop is already running"), w).
Proof.
  intros Hr Hl Hc. unfold run_until_complete.
  unfold bind at 1. rewrite (is_closed_lookup w l lp Hl), Hc.
  unfold bind, get. rewrite Hr, Nat.eqb_refl. reflexivity.
Qed.

Lemma create_task_spec (l c : nat) (w : world) (lp : event_loop) :
  loops w !! l = Some lp ->
  exists w',
    create_task l c w = (Ok (PFuture (length (futures w))), w')
    /\ coros w' = coros w /\ executed w' = executed w /\ turns w' = turns w
    /\ futures w' = futures w ++ [Pending (TaskFor c)]
    /\ is_pending w' (length (futures w)) = true
    /\ loops w' !! l
       = Some (mk_loop (lp_closed lp) (lp_tasks lp ++ [length (futures w)])).
Proof.
  intros Hl. eexists. split; [reflexivity|].
  cbn [coros executed turns futures loops set_loops set_futures].
  repeat split.
  - unfold is_pending. cbn [futures set_loops set_futures].
    now rewrite list_lookup_middle.
  - now rewrite list_lookup_alter_eq, Hl.
Qed.

(** C3 (as amended): called on an awaitable while the thread's loop is
  running, [run_sync] meets the busy condition and does not raise; nothing
  is run and nothing is waited for.  For a coroutine it returns a new
  pending task, scheduled on the running loop; for a future it returns
  that same future, whatever its state. *)
Theorem run_sync_on_running_loop (obj : pyobj) (w : world) (l : nat)
    (lp : event_loop) :
  isawaitable obj = true ->
  running_loop w = Some l ->
  loops w !! l = Some lp -> lp_closed lp = false ->
  run_until_complete l obj w =
    (Raise (mk_exn RuntimeError "This event loop is already running"), w)
  /\ exists f w',
       run_sync obj w = (Ok (PFuture f), w')
       /\ coros w' = coros w /\ executed w' = executed w
       /\ turns w' = turns w
       /\ match obj with
          | PCoro c =>
              f = length (futures w)
              /\ futures w' = futures w ++ [Pending (TaskFor c)]
              /\ is_pending w' f = true
              /\ loops w' !! l = Some (mk_loop false (lp_tasks lp ++ [f]))
          | _ => obj = PFuture f /\ w' = w
          end.
Proof.
  intros Ha Hr Hl Hc.
  pose proof (run_until_complete_running obj w l lp Hr Hl Hc) as Hu.
  split; [exact Hu|].
  rewrite (run_sync_with_loop obj w l lp Ha (get_event_loop_running w l Hr) Hl Hc).
  rewrite Hu. cbn [isinstance issubclass exc_type exc_class_eqb orb exc_str].
  change (String.eqb "This event loop is already running"
            "This event loop is already running") with true. cbv iota.
  destruct obj as [| | |c|f]; try discriminate; cbn [asyncio_ensure_future].
  - unfold bind. rewrite (get_event_loop_running w l Hr).
    destruct (create_task_spec l c w lp Hl)
      as [w' [Ht [H1 [H2 [H3 [H4 [H5 H6]]]]]]].
    rewrite Ht. exists (length (futures w)), w'.
    rewrite Hc in H6. repeat split; assumption.
  - exists f, w. repeat split; reflexivity.
Qed.

Lemma run_sync_on_running_loop_witness :
  exists f w',
    run_sync (PCoro 0) (busy_world [mk_coroutine (Ok (PInt 7)) 0 false] [])
      = (Ok (PFuture f), w')
    /\ is_pending w' f = true
    /\ executed w' = [].
Proof.
  destruct (run_sync_on_running_loop (PCoro 0)
              (busy_world [mk_coroutine (Ok (PInt 7)) 0 false] [])
              0 (mk_loop false []))
    as [_ [f [w' [Hs [_ [He [_ [_ [_ [Hp _]]]]]]]]]]; try reflexivity.
  exists f, w'. split; [exact Hs|]. split; [exact Hp|exact He].
Defined.

(** [run_sync] outside a running loop: the current loop is used when it
  is open; a thread without a loop, or with a closed one, gets a new loop,
  which stays the current one afterwards. *)
Example run_sync_idle_loop :
  run_sync (PCoro 0) (idle_world [mk_coroutine (Ok (PInt 42)) 2 false] [])
  = (Ok (PInt 42),
     mk_world [mk_coroutine (Ok (PInt 42)) 2 true] [Finished (Ok (PInt 42))]
       [mk_loop false [0]] (Some 0) false None [0] 3).
Proof. reflexivity. Qed.

Example run_sync_no_loop :
  run_sync (PCoro 0)
    (mk_world [mk_coroutine (Ok (PInt 42)) 0 false] [] [] None false None [] 0)
  = (Ok (PInt 42),
     mk_world [mk_coroutine (Ok (PInt 42)) 0 true] [Finished (Ok (PInt 42))]
       [mk_loop false [0]] (Some 0) false None [0] 1).
Proof. reflexivity. Qed.

Example run_sync_closed_loop :
  run_sync (PCoro 0)
    (mk_world [mk_coroutine (Ok (PInt 42)) 4 false] []
       [mk_loop true []] (Some 0) false None [] 0)
  = (Ok (PInt 42),
     mk_world [mk_coroutine (Ok (PInt 42)) 4 true] [Finished (Ok (PInt 42))]
       [mk_loop true []; mk_loop false [0]] (Some 1) false None [0] 5).
Proof. reflexivity. Qed.

(** A future of the closed loop is not driven on the new one:
  [run_until_complete] refuses it with a [ValueError], which [run_sync]
  lets through. *)
Example run_sync_closed_loop_future :
  run_sync (PFuture 0)
    (mk_world [] [Pending (FromOutside 4 (Ok (PInt 42)))]
       [mk_loop true [0]] (Some 0) false None [] 0)
  = (Raise different_loop,
     mk_world [] [Pending (FromOutside 4 (Ok (PInt 42)))]
       [mk_loop true [0]; mk_loop false []] (Some 1) false None [] 0).
Proof. reflexivity. Qed.

(** A future of the current loop is driven on it. *)
Example run_sync_future_of_current_loop :
  run_sync (PFuture 0)
    (mk_world [] [Pending (FromOutside 4 (Ok (PInt 42)))]
       [mk_loop false [0]] (Some 0) false None [] 0)
  = (Ok (PInt 42),
     mk_world [] [Finished (Ok (PInt 42))]
       [mk_loop false [0]] (Some 0) false None [] 4).
Proof. reflexivity. Qed.

(** C3 as stated fails on a future that is finished already: it comes
  back from [run_sync] as it is, holding its result, so the handle the
  caller gets is not a pending one. *)
Lemma run_sync_returns_finished_future :
  let w := busy_world [] [Finished (Ok (PInt 7))] in
  run_until_complete 0 (PFuture 0) w =
    (Raise (mk_exn RuntimeError "This event loop is already running"), w)
  /\ run_sync (PFuture 0) w = (Ok (PFuture 0), w)
  /\ is_pending w 0 = false
  /\ ~ (exists f w', run_sync (PFuture 0) w = (Ok (PFuture f), w')
                     /\ is_pending w' f = true).
Proof.
  split; [reflexivity|]. split; [reflexivity|]. split; [reflexivity|].
  intros [f [w' [H Hp]]]. cbv in H. injection H as <- <-. discriminate.
Qed.

End BridgeFacts.

(* ===================================================================== *)
(** * Properties of the deprecated decorator *)
(* ===================================================================== *)

Section DeprecationFacts.
Import Py Deprecation.
Local Open Scope string_scope.

Context {A B : Type}.

Lemma warn_after_simplefilter (self : deprecated) (func : pyfunc A B)
    (w : wstate) :
  bind (simplefilter Always DeprecationWarning)
    (fun _ => warn_explicit (msg self func) DeprecationWarning
                (co_filename func) (co_firstlineno func + 1)) w
  = (Ok tt, warned self func w).
Proof. reflexivity. Qed.

Lemma wrapped_warn (self : deprecated) (func : pyfunc A B) (args : A)
    (w : wstate) :
  behavior self = "warn" ->
  wrapped self func args w = fn_call func args (warned self func w).
Proof.
  intros Hb. unfold wrapped. rewrite Hb. cbn [String.eqb Ascii.eqb Bool.eqb].
  unfold bind at 1. now rewrite warn_after_simplefilter.
Qed.

Lemma wrapped_raise (self : deprecated) (func : pyfunc A B) (args : A)
    (w : wstate) :
  behavior self = "raise" ->
  wrapped self func args w
  = (Raise (mk_exn DeprecationWarning (msg self func)), w).
Proof. intros Hb. unfold wrapped. rewrite Hb. reflexivity. Qed.

(** C9 (as amended): in 'warn' mode every call of the wrapper shows one
  [DeprecationWarning] (the filter is set to [always], so a later call
  shows it again) and then gives what [func] gives on the same arguments;
  the text names the function, the removal version and the replacement
  when they were given.  In 'raise' mode the call raises a
  [DeprecationWarning] with that text and [func] is not called. *)
Theorem deprecated_wrapper_spec (self : deprecated) (func : pyfunc A B)
    (args : A) (w : wstate) :
  (behavior self = "warn" ->
   fn_call (deprecated_call self func) args w
   = fn_call func args (warned self func w))
  /\ (behavior self = "raise" ->
      fn_call (deprecated_call self func) args w
      = (Raise (mk_exn DeprecationWarning (msg self func)), w))
  /\ msg self func =
       "Function ``" ++ fn_name func ++ "`` is deprecated"
       ++ match removed_version self with
          | Some v => " and will be removed in version " ++ v
          | None => ""
          end
       ++ "."
       ++ match alt_func self with
          | Some a => " Use ``" ++ a ++ "`` instead."
          | None => ""
          end.
Proof.
  split; [apply wrapped_warn|]. split; [apply wrapped_raise|reflexivity].
Qed.

End DeprecationFacts.

Section DeprecationExamples.
Import Py Deprecation.
Local Open Scope string_scope.

Lemma deprecated_wrapper_spec_witness :
  fn_call marked_old_function 5%Z fresh_warnings
  = (Ok 5%Z,
     mk_wstate [mk_filter Always DeprecationWarning 0] Default [] [the_warning])
  /\ fn_call
       (deprecated_call (deprecated_init None (Some "raise") None) old_function)
       5%Z fresh_warnings
     = (Raise (mk_exn DeprecationWarning "Function ``old`` is deprecated."),
        fresh_warnings).
Proof.
  split.
  - apply (deprecated_wrapper_spec
             (deprecated_init (Some "new") None (Some "2.0")) old_function
             5%Z fresh_warnings).
    reflexivity.
  - apply (deprecated_wrapper_spec
             (deprecated_init None (Some "raise") None) old_function
             5%Z fresh_warnings).
    reflexivity.
Defined.

(** C9 as stated fails on "one-time": two calls of the wrapper show the
  warning twice. *)
Lemma deprecation_warning_shown_every_call :
  let w1 := snd (fn_call marked_old_function 5%Z fresh_warnings) in
  let w2 := snd (fn_call marked_old_function 5%Z w1) in
  shown w1 = [the_warning]
  /\ shown w2 = [the_warning; the_warning]
  /\ ~ (length (shown w2) <= 1).
Proof.
  split; [reflexivity|]. split; [reflexivity|]. cbn. lia.
Qed.

End DeprecationExamples.


(* ===================================================================== *)
(** * More properties of to_os_path and to_api_path *)
(* ===================================================================== *)

Section MorePathFacts.
Import PyStr Paths.

Lemma os_path_join_app (r : pystr) (l1 l2 : list pystr) :
  os_path_join r (l1 ++ l2) = os_path_join (os_path_join r l1) l2.
Proof.
  revert r. induction l1 as [|b l1 IH]; intros r; [reflexivity|].
  cbn [app]. rewrite !os_path_join_cons. apply IH.
Qed.

(** The file-system path of an API path lies under the root as a string:
  it starts with the root, and it is the root itself when the API path
  has no component. *)
Theorem to_os_path_starts_with_root (p r : pystr) :
  startswith (to_os_path p r) r = true
  /\ (segments p = [] -> to_os_path p r = r).
Proof.
  rewrite to_os_path_segments. pose proof (segments_ok p) as Hok.
  destruct (segments p) as [|b ps] eqn:Ep.
  - split; [|reflexivity]. cbn [os_path_join].
    pose proof (startswith_app r []) as Hs. now rewrite app_nil_r in Hs.
  - split; [|discriminate].
    rewrite os_path_join_components by (auto; discriminate).
    apply startswith_app.
Qed.

Lemma to_os_path_starts_with_root_witness :
  to_os_path (py "///") (py "/srv/nb") = py "/srv/nb".
Proof.
  destruct (to_os_path_starts_with_root (py "///") (py "/srv/nb")) as [_ H].
  apply H. reflexivity.
Defined.

(** Converting a path made of two parts is converting the second part
  with the converted first part as the root. *)
Theorem to_os_path_compose (p q r : pystr) :
  to_os_path (p ++ slash :: q) r = to_os_path q (to_os_path p r).
Proof.
  rewrite !to_os_path_segments, segments_app_sep. apply os_path_join_app.
Qed.

(** The file-system path does not depend on how many slashes separate,
  precede or follow the components of the API path. *)
Theorem to_os_path_normalized_argument (p r : pystr) :
  to_os_path (normalize_slashes p) r = to_os_path p r.
Proof.
  rewrite !to_os_path_segments, normalize_slashes_segments.
  now rewrite segments_join by apply segments_ok.
Qed.

(** An API path made by [to_api_path] is in normal form: normalizing it,
  or converting it again without a root, gives it back. *)
Theorem to_api_path_normal_form (o r : pystr) :
  normalize_slashes (to_api_path o r) = to_api_path o r
  /\ to_api_path (to_api_path o r) [] = to_api_path o r.
Proof.
  assert (H : join [slash] (segments (to_api_path o r)) = to_api_path o r).
  { rewrite segments_to_api_path. symmetry. apply to_api_path_segments. }
  split.
  - now rewrite normalize_slashes_segments.
  - rewrite (to_api_path_segments (to_api_path o r) []). exact H.
Qed.

End MorePathFacts.

(* ===================================================================== *)
(** * Properties of url_path_join *)
(* ===================================================================== *)

Section UrlJoinFacts.
Import PyStr Paths Urls.

Lemma str_eqb_eq (a b : pystr) : Version.str_eqb a b = true -> a = b.
Proof.
  revert b. induction a as [|x a IH]; intros [|y b]; simpl; try discriminate;
    [reflexivity|].
  intros H. apply andb_prop in H. destruct H as [E H].
  apply Ascii.eqb_eq in E. subst. f_equal. now apply IH.
Qed.

Lemma first_last_piece (pieces : list pystr) :
  pieces <> [] ->
  exists p0 pn, first_piece pieces = inr p0 /\ last_piece pieces = inr pn.
Proof.
  intros Hne. destruct pieces as [|p0 ps]; [contradiction|].
  exists p0. clear Hne. revert p0.
  induction ps as [|q ps IH]; intros p0.
  - exists p0. split; reflexivity.
  - destruct (IH q) as [pn [_ Hl]]. exists pn. split; [reflexivity|exact Hl].
Qed.

(** The slash put in front, the joined pieces, the slash put behind. *)
Lemma url_path_join_parts (pieces : list pystr) (p0 pn : pystr) :
  first_piece pieces = inr p0 -> last_piece pieces = inr pn ->
  url_path_join pieces =
    inr (let r := (if startswith p0 [slash] then [slash] else [])
                  ++ join [slash] (drop_empty (map (strip slash) pieces))
                  ++ (if endswith pn [slash] then [slash] else []) in
         if Version.str_eqb r [slash; slash] then [slash] else r).
Proof.
  intros Hf Hl. unfold url_path_join. rewrite Hf, Hl. cbv zeta.
  destruct (startswith p0 [slash]), (endswith pn [slash]);
    cbn [app]; rewrite ?app_nil_r; reflexivity.
Qed.

Lemma segments_join_any (l : list pystr) :
  segments (join [slash] l) = flat_map segments l.
Proof.
  induction l as [|p l IH]; [reflexivity|].
  destruct l as [|q l].
  - simpl. now rewrite app_nil_r.
  - rewrite join_cons by discriminate. rewrite segments_app_sep, IH.
    reflexivity.
Qed.

Lemma flat_map_segments_drop_empty (l : list pystr) :
  flat_map segments (drop_empty l) = flat_map segments l.
Proof.
  induction l as [|p l IH]; [reflexivity|].
  destruct p as [|x p]; simpl; [exact IH|]. now f_equal.
Qed.

Lemma flat_map_segments_strip (l : list pystr) :
  flat_map segments (map (strip slash) l) = flat_map segments l.
Proof.
  induction l as [|p l IH]; [reflexivity|].
  simpl. now rewrite segments_strip, IH.
Qed.

Lemma endswith_snoc_slash (s : pystr) : endswith (s ++ [slash]) [slash] = true.
Proof. rewrite endswith_snoc. apply Ascii.eqb_refl. Qed.

Lemma segments_affixes (pre post : bool) (j : pystr) :
  segments ((if pre then [slash] else []) ++ j
            ++ (if post then [slash] else [])) = segments j.
Proof.
  destruct pre, post; cbn [app]; rewrite ?app_nil_r,
    ?segments_cons_sep, ?segments_snoc_sep; reflexivity.
Qed.

Lemma url_path_join_segments (pieces : list pystr) :
  pieces <> [] ->
  exists r, url_path_join pieces = inr r
            /\ segments r = flat_map segments pieces.
Proof.
  intros Hne.
  destruct (first_last_piece pieces Hne) as [p0 [pn [Hf Hl]]].
  rewrite (url_path_join_parts pieces p0 pn Hf Hl). cbv zeta.
  eexists. split; [reflexivity|].
  match goal with |- context [Version.str_eqb ?r ?d] =>
    destruct (Version.str_eqb r d) eqn:E end.
  - apply str_eqb_eq in E.
    transitivity
      (segments ((if startswith p0 [slash] then [slash] else [])
                 ++ join [slash] (drop_empty (map (strip slash) pieces))
                 ++ (if endswith pn [slash] then [slash] else []))).
    + rewrite E. reflexivity.
    + rewrite segments_affixes, segments_join_any,
        flat_map_segments_drop_empty, flat_map_segments_strip. reflexivity.
  - rewrite segments_affixes, segments_join_any,
      flat_map_segments_drop_empty, flat_map_segments_strip. reflexivity.
Qed.

(** [url_path_join] fails exactly when it is called without pieces;
  otherwise the components of the result are the components of the
  pieces, in order: joining neither loses nor invents a component. *)
Theorem url_path_join_components (pieces : list pystr) :
  url_path_join [] = inl tuple_index_out_of_range
  /\ (pieces <> [] ->
      exists r, url_path_join pieces = inr r
                /\ segments r = flat_map segments pieces).
Proof.
  split; [reflexivity|]. apply url_path_join_segments.
Qed.

Lemma url_path_join_components_witness :
  exists r, url_path_join [py "/api/"; py "/contents/"; py "nb.ipynb"] = inr r
            /\ segments r = [py "api"; py "contents"; py "nb.ipynb"].
Proof.
  destruct (url_path_join_components
              [py "/api/"; py "/contents/"; py "nb.ipynb"]) as [_ H].
  apply H. discriminate.
Defined.

Lemma url_path_join_outer (pieces : list pystr) (p0 pn r : pystr) :
  first_piece pieces = inr p0 -> last_piece pieces = inr pn ->
  url_path_join pieces = inr r ->
  (startswith p0 [slash] = true -> startswith r [slash] = true)
  /\ (endswith pn [slash] = true -> endswith r [slash] = true).
Proof.
  intros Hf Hl Hr. rewrite (url_path_join_parts pieces p0 pn Hf Hl) in Hr.
  cbv zeta in Hr.
  match type of Hr with inr ?x = inr r =>
    assert (Hx : r = x) by congruence end.
  rewrite Hx. clear Hr Hx.
  match goal with |- context [Version.str_eqb ?r ?d] =>
    destruct (Version.str_eqb r d) end.
  - split; reflexivity.
  - split.
    + intros ->. cbn [app startswith]. now rewrite Ascii.eqb_refl.
    + intros ->. rewrite !app_assoc. apply endswith_snoc_slash.
Qed.

(** The slash at the start of the first piece and the slash at the end of
  the last piece stay in place. *)
Theorem url_path_join_keeps_outer_slashes (pieces : list pystr)
    (p0 pn r : pystr) :
  first_piece pieces = inr p0 -> last_piece pieces = inr pn ->
  url_path_join pieces = inr r ->
  (startswith p0 [slash] = true -> startswith r [slash] = true)
  /\ (endswith pn [slash] = true -> endswith r [slash] = true).
Proof. apply url_path_join_outer. Qed.

Lemma url_path_join_keeps_outer_slashes_witness :
  startswith (py "/api/nb/") [slash] = true
  /\ endswith (py "/api/nb/") [slash] = true.
Proof.
  split;
    apply (url_path_join_keeps_outer_slashes [py "/api/"; py "nb/"]
             (py "/api/") (py "nb/") (py "/api/nb/"));
    reflexivity.
Defined.

Lemma rstrip_keeps_head (c : ascii) (t : pystr) :
  startswith t [c] = false -> startswith (rstrip c t) [c] = false.
Proof.
  destruct t as [|x t]; [reflexivity|]. cbn [startswith].
  rewrite andb_true_r. intros E. cbn [rstrip]. rewrite E. cbn [andb startswith].
  now rewrite E.
Qed.

Lemma strip_trimmed (s : pystr) :
  startswith (strip slash s) [slash] = false
  /\ endswith (strip slash s) [slash] = false.
Proof.
  unfold strip. split.
  - apply rstrip_keeps_head, lstrip_not_startswith.
  - apply rstrip_not_endswith.
Qed.

Lemma startswith_app_nonempty (q x : pystr) (c : ascii) :
  q <> [] -> startswith (q ++ x) [c] = startswith q [c].
Proof. destruct q; [contradiction|reflexivity]. Qed.

Lemma endswith_app_nonempty (a b : pystr) (c : ascii) :
  b <> [] -> endswith (a ++ b) [c] = endswith b [c].
Proof.
  intros Hne. destruct (exists_last Hne) as [b' [y ->]].
  now rewrite app_assoc, !endswith_snoc.
Qed.

Lemma stripped_pieces_trimmed (pieces : list pystr) :
  Forall trimmed_piece (drop_empty (map (strip slash) pieces)).
Proof.
  induction pieces as [|p ps IH]; [constructor|].
  cbn [map drop_empty List.filter]. fold (drop_empty (map (strip slash) ps)).
  destruct (strip slash p) as [|x s] eqn:E; cbn [is_empty negb]; [exact IH|].
  constructor; [|exact IH].
  pose proof (strip_trimmed p) as [H1 H2]. rewrite E in H1, H2.
  split; [discriminate|]. split; assumption.
Qed.

Lemma join_trimmed (l : list pystr) :
  Forall trimmed_piece l -> l <> [] -> trimmed_piece (join [slash] l).
Proof.
  induction 1 as [|q l Hq Hl IH]; intros Hne; [contradiction|].
  destruct l as [|q' l]; [exact Hq|].
  rewrite join_cons by discriminate.
  destruct (IH ltac:(discriminate)) as [Jne [Js Je]].
  destruct Hq as [Hqne [Hqs Hqe]]. split; [|split].
  - destruct q; [contradiction|discriminate].
  - now rewrite startswith_app_nonempty.
  - rewrite endswith_app_nonempty by discriminate.
    now rewrite endswith_cons.
Qed.

(** The joined middle part of the result: empty, or with no slash at
  either end. *)
Lemma joined_middle (pieces : list pystr) :
  join [slash] (drop_empty (map (strip slash) pieces)) = []
  \/ trimmed_piece (join [slash] (drop_empty (map (strip slash) pieces))).
Proof.
  pose proof (stripped_pieces_trimmed pieces) as H.
  destruct (drop_empty (map (strip slash) pieces)) as [|q l] eqn:E.
  - now left.
  - right. apply join_trimmed; [exact H|discriminate].
Qed.

Lemma rstrip_id (c : ascii) (s : pystr) :
  endswith s [c] = false -> rstrip c s = s.
Proof.
  induction s as [|x s IH]; [reflexivity|]. intros He. cbn [rstrip].
  destruct s as [|y s].
  - cbn [rstrip is_empty]. rewrite andb_true_r.
    change [x] with ([] ++ [x]) in He. rewrite endswith_snoc in He.
    now rewrite He.
  - rewrite endswith_cons in He by discriminate.
    rewrite (IH He). cbn [is_empty]. now rewrite andb_false_r.
Qed.

Lemma rstrip_snoc_sep (c : ascii) (s : pystr) :
  rstrip c (s ++ [c]) = rstrip c s.
Proof.
  induction s as [|x s IH].
  - cbn. now rewrite Ascii.eqb_refl.
  - cbn [app rstrip]. now rewrite IH.
Qed.

Lemma lstrip_id (c : ascii) (s : pystr) :
  startswith s [c] = false -> lstrip c s = s.
Proof.
  destruct s as [|x s]; [reflexivity|]. cbn [startswith lstrip].
  rewrite andb_true_r. now intros ->.
Qed.

Lemma strip_affixes (pre post : bool) (j : pystr) :
  trimmed_piece j ->
  strip slash ((if pre then [slash] else []) ++ j
               ++ (if post then [slash] else [])) = j.
Proof.
  intros [Hne [Hs He]]. unfold strip.
  assert (Hl : lstrip slash ((if pre then [slash] else []) ++ j
                             ++ (if post then [slash] else []))
               = j ++ (if post then [slash] else [])).
  { assert (Hj : lstrip slash (j ++ (if post then [slash] else []))
                 = j ++ (if post then [slash] else [])).
    { apply lstrip_id. now rewrite startswith_app_nonempty. }
    destruct pre; cbn [app lstrip]; [|exact Hj].
    rewrite Ascii.eqb_refl. exact Hj. }
  rewrite Hl. destruct post.
  - rewrite rstrip_snoc_sep. now apply rstrip_id.
  - rewrite app_nil_r. now apply rstrip_id.
Qed.

Lemma affixes_not_double_slash (pre post : bool) (j : pystr) :
  trimmed_piece j ->
  Version.str_eqb ((if pre then [slash] else []) ++ j
                   ++ (if post then [slash] else [])) [slash; slash] = false.
Proof.
  intros [Hne [Hs He]]. destruct j as [|y j]; [contradiction|].
  cbn [startswith] in Hs. rewrite andb_true_r in Hs.
  destruct pre; cbn [app Version.str_eqb].
  - rewrite Ascii.eqb_refl, Hs. reflexivity.
  - now rewrite Hs.
Qed.

(** Joining what [url_path_join] has joined changes nothing. *)
Theorem url_path_join_idempotent (pieces : list pystr) (r : pystr) :
  url_path_join pieces = inr r -> url_path_join [r] = inr r.
Proof.
  intros Hr.
  assert (Hne : pieces <> []) by (intros ->; discriminate).
  destruct (first_last_piece pieces Hne) as [p0 [pn [Hf Hl]]].
  rewrite (url_path_join_parts pieces p0 pn Hf Hl) in Hr. cbv zeta in Hr.
  match type of Hr with inr ?x = inr r =>
    assert (Hx : r = x) by congruence end.
  clear Hr. revert Hx.
  generalize (startswith p0 [slash]) as pre.
  generalize (endswith pn [slash]) as post.
  intros post pre.
  destruct (joined_middle pieces) as [-> | Ht].
  - intros ->. destruct pre, post; reflexivity.
  - set (j := join [slash] (drop_empty (map (strip slash) pieces))) in *.
    rewrite (affixes_not_double_slash pre post j Ht). intros Hx.
    rewrite (url_path_join_parts [r] r r eq_refl eq_refl). cbv zeta.
    subst r.
    cbn [map drop_empty List.filter].
    rewrite (strip_affixes pre post j Ht).
    destruct Ht as [Hjne [Hs He]].
    assert (Hj : is_empty j = false) by (destruct j; [contradiction|reflexivity]).
    rewrite Hj. cbn [negb join].
    assert (H1 : startswith ((if pre then [slash] else []) ++ j
                             ++ (if post then [slash] else [])) [slash] = pre).
    { destruct pre; cbn [app]; [reflexivity|].
      now rewrite startswith_app_nonempty. }
    assert (H2 : endswith ((if pre then [slash] else []) ++ j
                           ++ (if post then [slash] else [])) [slash] = post).
    { rewrite app_assoc. destruct post.
      - apply endswith_snoc_slash.
      - rewrite app_nil_r. now rewrite endswith_app_nonempty. }
    rewrite H1, H2.
    now rewrite (affixes_not_double_slash pre post j
                   (conj Hjne (conj Hs He))).
Qed.

Lemma url_path_join_idempotent_witness :
  url_path_join [py "/api/contents/nb/"] = inr (py "/api/contents/nb/").
Proof.
  apply (url_path_join_idempotent [py "/api/"; py "/contents/"; py "nb/"]).
  reflexivity.
Defined.

Lemma has_double_slash_cons (x y : ascii) (s : pystr) :
  has_double_slash (x :: y :: s)
  = (Ascii.eqb x slash && Ascii.eqb y slash) || has_double_slash (y :: s).
Proof. reflexivity. Qed.

Lemma has_double_slash_app (a b : pystr) :
  has_double_slash a = false -> has_double_slash b = false ->
  endswith a [slash] = false \/ startswith b [slash] = false ->
  has_double_slash (a ++ b) = false.
Proof.
  induction a as [|x a IH]; intros Ha Hb Hj; [exact Hb|].
  destruct a as [|x' a].
  - destruct b as [|y b]; [reflexivity|]. cbn [app].
    rewrite has_double_slash_cons, Hb, orb_false_r.
    destruct Hj as [Hj|Hj].
    + change [x] with ([] ++ [x]) in Hj. rewrite endswith_snoc in Hj.
      now rewrite Hj.
    + cbn [startswith] in Hj. rewrite andb_true_r in Hj.
      rewrite Hj. apply andb_false_r.
  - cbn [app]. rewrite has_double_slash_cons in Ha |- *.
    apply orb_false_elim in Ha. destruct Ha as [Ha1 Ha2]. rewrite Ha1.
    cbn [orb]. apply IH; [exact Ha2|exact Hb|].
    destruct Hj as [Hj|Hj]; [left|now right].
    now rewrite endswith_cons in Hj by discriminate.
Qed.

Lemma has_double_slash_after_slash (j : pystr) :
  has_double_slash j = false -> startswith j [slash] = false ->
  has_double_slash (slash :: j) = false.
Proof.
  intros Hd Hs. apply (has_double_slash_app [slash] j); auto.
Qed.

Lemma join_no_double_slash (l : list pystr) :
  Forall trimmed_piece l ->
  Forall (fun q => has_double_slash q = false) l ->
  has_double_slash (join [slash] l) = false.
Proof.
  induction 1 as [|q l Hq Hl IH]; intros Hd; [reflexivity|].
  inversion Hd as [|? ? Hdq Hdl]; subst.
  destruct l as [|q' l]; [exact Hdq|].
  rewrite join_cons by discriminate.
  destruct (join_trimmed (q' :: l) Hl ltac:(discriminate)) as [_ [Js _]].
  destruct Hq as [_ [_ Hqe]].
  apply has_double_slash_app; [exact Hdq| |now left].
  apply has_double_slash_after_slash; [now apply IH|exact Js].
Qed.

Lemma stripped_pieces_no_double (pieces : list pystr) :
  Forall (fun p => has_double_slash (strip slash p) = false) pieces ->
  Forall (fun q => has_double_slash q = false)
    (drop_empty (map (strip slash) pieces)).
Proof.
  induction 1 as [|p ps Hp Hps IH]; [constructor|].
  cbn [map drop_empty List.filter]. fold (drop_empty (map (strip slash) ps)).
  destruct (is_empty (strip slash p)); cbn [negb]; [exact IH|].
  now constructor.
Qed.

(** Pieces that hold no double slash between their ends are joined into
  a URL that holds no double slash at all. *)
Theorem url_path_join_no_double_slash (pieces : list pystr) (r : pystr) :
  Forall (fun p => has_double_slash (strip slash p) = false) pieces ->
  url_path_join pieces = inr r ->
  has_double_slash r = false.
Proof.
  intros Hd Hr.
  assert (Hne : pieces <> []) by (intros ->; discriminate).
  destruct (first_last_piece pieces Hne) as [p0 [pn [Hf Hl]]].
  rewrite (url_path_join_parts pieces p0 pn Hf Hl) in Hr. cbv zeta in Hr.
  match type of Hr with inr ?x = inr r =>
    assert (Hx : r = x) by congruence end.
  clear Hr. subst r.
  pose proof (join_no_double_slash _ (stripped_pieces_trimmed pieces)
                (stripped_pieces_no_double pieces Hd)) as Hj.
  revert Hj.
  generalize (startswith p0 [slash]) as pre.
  generalize (endswith pn [slash]) as post.
  intros post pre.
  destruct (joined_middle pieces) as [-> | Ht].
  - intros _. destruct pre, post; reflexivity.
  - set (j := join [slash] (drop_empty (map (strip slash) pieces))) in *.
    intros Hj. rewrite (affixes_not_double_slash pre post j Ht).
    destruct Ht as [Hjne [Hs He]].
    assert (Hp : has_double_slash (j ++ (if post then [slash] else [])) = false).
    { destruct post; [|now rewrite app_nil_r].
      apply has_double_slash_app; [exact Hj|reflexivity|now left]. }
    destruct pre; cbn [app]; [|exact Hp].
    apply has_double_slash_after_slash; [exact Hp|].
    now rewrite startswith_app_nonempty.
Qed.

Lemma url_path_join_no_double_slash_witness :
  has_double_slash (py "/api/contents/a b/") = false.
Proof.
  apply (url_path_join_no_double_slash
           [py "/api/"; py "//contents//"; py "/a b/"]).
  - repeat constructor.
  - reflexivity.
Defined.

End UrlJoinFacts.

(* ===================================================================== *)
(** * Properties of url_escape, url_unescape, path2url and url2path *)
(* ===================================================================== *)

Section UrlQuoteFacts.
Import PyStr Paths Urls.

Ltac each_character c := destruct c as [[] [] [] [] [] [] [] []].

Lemma unquote_quote_char (c : ascii) (rest : pystr) :
  unquote (quote_char c ++ rest) = option_map (cons c) (unquote rest).
Proof. each_character c; reflexivity. Qed.

Lemma quote_cons (c : ascii) (s : pystr) :
  quote (c :: s) = quote_char c ++ quote s.
Proof. reflexivity. Qed.

Lemma quote_app (a b : pystr) : quote (a ++ b) = quote a ++ quote b.
Proof. unfold quote. apply flat_map_app. Qed.

(** [unquote] undoes [quote]. *)
Lemma unquote_quote (s : pystr) : unquote (quote s) = Some s.
Proof.
  induction s as [|c s IH]; [reflexivity|].
  now rewrite quote_cons, unquote_quote_char, IH.
Qed.

Lemma quote_char_chars (c : ascii) :
  forallb url_char (quote_char c) = true
  /\ is_empty (quote_char c) = false
  /\ (Ascii.eqb c slash = false ->
      existsb (Ascii.eqb slash) (quote_char c) = false).
Proof. each_character c; vm_compute; auto. Qed.

Lemma existsb_app_false {A : Type} (f : A -> bool) (l k : list A) :
  existsb f l = false -> existsb f k = false -> existsb f (l ++ k) = false.
Proof. intros Hl Hk. now rewrite existsb_app, Hl, Hk. Qed.

Lemma not_in_existsb (c : ascii) (s : pystr) :
  ~ In c s <-> existsb (Ascii.eqb c) s = false.
Proof.
  induction s as [|x s IH]; simpl; [tauto|].
  destruct (Ascii.eqb c x) eqn:E; simpl.
  - apply Ascii.eqb_eq in E. subst. split; [intros H; exfalso; auto|discriminate].
  - apply Ascii.eqb_neq in E. rewrite <- IH. split; [tauto|].
    intros H [H1|H1]; [congruence|auto].
Qed.

(** [quote] brings no slash into a piece that has none, and only an empty
  piece gives an empty one. *)
Lemma quote_no_slash (p : pystr) : ~ In slash p -> ~ In slash (quote p).
Proof.
  rewrite !not_in_existsb. induction p as [|c p IH]; [reflexivity|].
  cbn [existsb]. intros H. apply orb_false_elim in H. destruct H as [Hc Hp].
  rewrite quote_cons. apply existsb_app_false; [|now apply IH].
  apply quote_char_chars. now rewrite Ascii.eqb_sym.
Qed.

Lemma quote_is_empty (p : pystr) : is_empty (quote p) = is_empty p.
Proof.
  destruct p as [|c p]; [reflexivity|]. rewrite quote_cons.
  pose proof (quote_char_chars c) as [_ [H _]].
  destruct (quote_char c); [discriminate|reflexivity].
Qed.

Lemma join_split (c : ascii) (s : pystr) : join [c] (split c s) = s.
Proof.
  induction s as [|x s IH]; [reflexivity|]. cbn [split].
  pose proof (split_not_nil c s) as Hn.
  destruct (Ascii.eqb x c) eqn:E.
  - apply Ascii.eqb_eq in E. subst x.
    rewrite join_cons by exact Hn. now rewrite IH.
  - destruct (split c s) as [|p ps]; [contradiction|].
    destruct ps as [|q ps].
    + cbn [join] in *. now rewrite IH.
    + rewrite join_cons in IH |- * by discriminate.
      cbn [app]. now rewrite IH.
Qed.

Lemma split_join (c : ascii) (ps : list pystr) :
  Forall (fun p => ~ In c p) ps -> ps <> [] -> split c (join [c] ps) = ps.
Proof.
  induction 1 as [|p ps Hp Hps IH]; intros Hne; [contradiction|].
  destruct ps as [|q ps].
  - cbn [join]. now apply split_sepfree.
  - rewrite join_cons by discriminate.
    rewrite split_app_sep, IH by discriminate.
    now rewrite split_sepfree.
Qed.

Lemma unquote_all_quote (l : list pystr) :
  unquote_all (map quote l) = Some l.
Proof.
  induction l as [|p l IH]; [reflexivity|].
  cbn [map unquote_all]. now rewrite unquote_quote, IH.
Qed.

Lemma quoted_pieces_sepfree (s : pystr) :
  Forall (fun p => ~ In slash p) (map quote (split slash s)).
Proof.
  pose proof (split_pieces_sepfree slash s) as H.
  induction H as [|p ps Hp Hps IH]; cbn [map]; constructor;
    [now apply quote_no_slash|exact IH].
Qed.

Lemma split_url_escape (path : pystr) :
  split slash (url_escape path) = map quote (split slash path).
Proof.
  unfold url_escape. apply split_join; [apply quoted_pieces_sepfree|].
  pose proof (split_not_nil slash path) as Hn.
  destruct (split slash path); [contradiction|discriminate].
Qed.

(** [url_unescape] undoes [url_escape], on every path. *)
Theorem url_unescape_url_escape (path : pystr) :
  url_unescape (url_escape path) = Some path.
Proof.
  unfold url_unescape. rewrite split_url_escape, unquote_all_quote.
  now rewrite join_split.
Qed.

Lemma url_escape_eq_quote (path : pystr) : url_escape path = quote path.
Proof.
  unfold url_escape. induction path as [|x s IH]; [reflexivity|].
  cbn [split]. pose proof (split_not_nil slash s) as Hn.
  destruct (split slash s) as [|p ps]; [contradiction|].
  destruct (Ascii.eqb x slash) eqn:E.
  - apply Ascii.eqb_eq in E. subst x.
    change (map quote ([] :: p :: ps)) with ([] :: map quote (p :: ps)).
    rewrite join_cons by discriminate. now rewrite IH.
  - cbn [map] in *. rewrite join_flat_map in IH |- *.
    rewrite (quote_cons x p), <- app_assoc, IH. reflexivity.
Qed.

(** Escaping piece by piece is escaping the whole path: [url_escape] is
  [quote], the slashes stay where they are, and the escaped path is made
  of unreserved characters, slashes and percent signs only. *)
Theorem url_escape_is_quote (path : pystr) :
  url_escape path = quote path
  /\ forallb url_char (url_escape path) = true.
Proof.
  pose proof (url_escape_eq_quote path) as H.
  split; [exact H|]. rewrite H. clear H.
  induction path as [|c s IH]; [reflexivity|].
  rewrite quote_cons, forallb_app, IH, andb_true_r.
  now destruct (quote_char_chars c) as [H1 _].
Qed.

Example url_escape_docstring :
  url_escape (py "/foo bar/") = py "/foo%20bar/".
Proof. reflexivity. Qed.

Example url_unescape_docstring :
  url_unescape (py "/foo%20bar/") = Some (py "/foo bar/").
Proof. reflexivity. Qed.

Lemma keep_trailing_snoc (l : list pystr) (p : pystr) :
  keep_trailing (l ++ [p]) = l ++ [if is_empty p then [slash] else p].
Proof.
  induction l as [|x l IH]; [reflexivity|].
  cbn [app]. destruct l as [|y l]; [reflexivity|].
  cbn [app] in *. cbn [keep_trailing] in *. now rewrite IH.
Qed.

Lemma last_piece_snoc (l : list pystr) (p : pystr) :
  last_piece (l ++ [p]) = inr p.
Proof.
  induction l as [|x l IH]; [reflexivity|].
  cbn [app]. destruct l as [|y l]; [reflexivity|exact IH].
Qed.

Lemma flat_map_segments_keep_trailing (l : list pystr) :
  flat_map segments (keep_trailing l) = flat_map segments l.
Proof.
  destruct l as [|x l]; [reflexivity|].
  assert (Hne : x :: l <> []) by discriminate.
  destruct (exists_last Hne) as [l' [p ->]].
  rewrite keep_trailing_snoc, !flat_map_app. f_equal.
  destruct p; reflexivity.
Qed.

Lemma segments_quote_piece (p : pystr) :
  ~ In slash p ->
  segments (quote p) = if is_empty p then [] else [quote p].
Proof.
  intros Hp. destruct p as [|c p]; [reflexivity|].
  cbn [is_empty]. apply segments_single. split.
  - intros E. pose proof (quote_is_empty (c :: p)) as H.
    rewrite E in H. discriminate.
  - now apply quote_no_slash.
Qed.

Lemma flat_map_segments_quote (l : list pystr) :
  Forall (fun p => ~ In slash p) l ->
  flat_map segments (map quote l) = map quote (drop_empty l).
Proof.
  induction 1 as [|p l Hp Hl IH]; [reflexivity|].
  cbn [map flat_map]. rewrite (segments_quote_piece p Hp), IH.
  destruct p; reflexivity.
Qed.

Lemma split_snoc_sep (c : ascii) (s : pystr) :
  split c (s ++ [c]) = split c s ++ [[]].
Proof. now rewrite split_app_sep. Qed.

(** On a path of characters below U+0100 [path2url] returns a URL:
  [quote] encodes every such character and [url_path_join] gets at least
  one piece.  The components of the URL are the quoted components of the
  path, so empty components, and with them a leading separator, are
  dropped; a trailing separator is kept. *)
Theorem path2url_components (path : pystr) :
  exists r,
    path2url path = inr r
    /\ segments r = map quote (segments path)
    /\ (endswith path [os_sep] = true -> endswith r [slash] = true).
Proof.
  unfold path2url.
  set (pieces := keep_trailing (map quote (split os_sep path))).
  assert (Hne : pieces <> []).
  { unfold pieces. pose proof (split_not_nil os_sep path) as Hn.
    destruct (split os_sep path) as [|x l]; [contradiction|].
    assert (Hm : map quote (x :: l) <> []) by discriminate.
    destruct (exists_last Hm) as [l' [p ->]].
    rewrite keep_trailing_snoc. destruct l'; discriminate. }
  destruct (url_path_join_segments pieces Hne) as [r [Hr Hs]].
  exists r. split; [exact Hr|]. split.
  - rewrite Hs. unfold pieces.
    rewrite flat_map_segments_keep_trailing.
    apply flat_map_segments_quote, split_pieces_sepfree.
  - intros He. apply endswith_inv in He. destruct He as [s ->].
    destruct (first_last_piece pieces Hne) as [p0 [pn [Hf Hl]]].
    assert (Hpn : pn = [slash]).
    { unfold pieces in Hl.
      rewrite split_snoc_sep, map_app in Hl. cbn [map] in Hl.
      change (quote []) with (@nil ascii) in Hl.
      rewrite keep_trailing_snoc, last_piece_snoc in Hl.
      cbn [is_empty] in Hl. congruence. }
    subst pn.
    now apply (url_path_join_outer pieces p0 [slash] r Hf Hl Hr).
Qed.

Lemma path2url_components_witness :
  exists r,
    path2url (py "/home/my notes/") = inr r
    /\ segments r = [py "home"; py "my%20notes"]
    /\ endswith r [slash] = true.
Proof.
  destruct (path2url_components (py "/home/my notes/")) as [r [H1 [H2 H3]]].
  exists r. split; [exact H1|]. split; [exact H2|].
  apply H3. reflexivity.
Defined.

Lemma unquote_all_length (l k : list pystr) :
  unquote_all l = Some k -> length k = length l.
Proof.
  revert k. induction l as [|p l IH]; intros k H.
  - injection H as <-. reflexivity.
  - cbn [unquote_all] in H. destruct (unquote p); [|discriminate].
    destruct (unquote_all l) as [k'|]; [|discriminate].
    injection H as <-. cbn [length]. now rewrite (IH k').
Qed.

(** A slash in front of a URL does not reach the file-system path: the
  path [url2path] makes of an absolute URL is the one it makes of the URL
  without its first slash. *)
Theorem url2path_drops_leading_slash (rest : pystr) :
  url2path (slash :: rest) = url2path rest.
Proof.
  unfold url2path. rewrite split_cons_sep. cbn [unquote_all unquote].
  pose proof (split_not_nil slash rest) as Hn.
  destruct (unquote_all (split slash rest)) as [k|] eqn:E; [|reflexivity].
  apply unquote_all_length in E.
  destruct k as [|a p].
  - destruct (split slash rest); [contradiction|discriminate].
  - cbn [hd tl]. rewrite os_path_join_cons. cbn [is_empty orb app].
    destruct (startswith a [os_sep]); reflexivity.
Qed.

Lemma unquote_all_app (l1 l2 : list pystr) :
  unquote_all (l1 ++ l2) =
    match unquote_all l1, unquote_all l2 with
    | Some k1, Some k2 => Some (k1 ++ k2)
    | _, _ => None
    end.
Proof.
  induction l1 as [|p l1 IH]; cbn [app unquote_all].
  - now destruct (unquote_all l2).
  - rewrite IH. destruct (unquote p); [|reflexivity].
    destruct (unquote_all l1); [|reflexivity].
    now destruct (unquote_all l2).
Qed.

Lemma unquote_escaped_slash (s : pystr) :
  unquote (py "%2F" ++ s) = option_map (cons slash) (unquote s).
Proof. reflexivity. Qed.

Lemma split_escaped_slash (b b0 : pystr) (bs : list pystr) :
  split slash b = b0 :: bs ->
  split slash (py "%2F" ++ b) = (py "%2F" ++ b0) :: bs.
Proof.
  intros H. change (py "%2F" ++ b) with ("%"%char :: "2"%char :: "F"%char :: b).
  change (py "%2F" ++ b0) with ("%"%char :: "2"%char :: "F"%char :: b0).
  repeat (apply split_cons_other; [reflexivity|]). exact H.
Qed.

(** An escaped slash at the start of a component makes [url2path] start
  over: everything before that component is left out of the path, which
  is then an absolute one. *)
Theorem url2path_escaped_slash_restarts (a b : pystr) :
  url2path a <> None ->
  url2path (a ++ py "/%2F" ++ b) = url2path (py "%2F" ++ b)
  /\ (forall path, url2path (py "%2F" ++ b) = Some path ->
      startswith path [os_sep] = true).
Proof.
  intros Ha. unfold url2path in *.
  change (a ++ py "/%2F" ++ b) with (a ++ slash :: (py "%2F" ++ b)).
  rewrite split_app_sep, unquote_all_app.
  pose proof (split_not_nil slash b) as Hb.
  destruct (split slash b) as [|b0 bs] eqn:Eb; [contradiction|].
  rewrite (split_escaped_slash b b0 bs Eb). cbn [unquote_all].
  rewrite unquote_escaped_slash.
  pose proof (split_not_nil slash a) as Hn.
  destruct (unquote_all (split slash a)) as [ka|] eqn:Ea; [|contradiction].
  apply unquote_all_length in Ea.
  destruct ka as [|a0 ka];
    [destruct (split slash a); [contradiction|discriminate]|].
  destruct (unquote b0) as [u0|]; cbn [option_map];
    [|split; [reflexivity|discriminate]].
  destruct (unquote_all bs) as [kb|]; [|split; [reflexivity|discriminate]].
  cbn [app hd tl]. split.
  - rewrite os_path_join_app, !os_path_join_cons. reflexivity.
  - intros path [= <-]. clear. revert u0.
    assert (H : forall r l, startswith r [os_sep] = true ->
                            startswith (os_path_join r l) [os_sep] = true).
    { intros r l. revert r. induction l as [|x l IH]; intros r Hr; [exact Hr|].
      rewrite os_path_join_cons. apply IH.
      destruct (startswith x [os_sep]) eqn:Ex; [exact Ex|].
      destruct r as [|y r]; [discriminate|].
      destruct (is_empty (y :: r) || endswith (y :: r) [os_sep]); exact Hr. }
    intros u0. apply H. reflexivity.
Qed.

Lemma url2path_escaped_slash_restarts_witness :
  url2path (py "files/%2Fetc/passwd") = Some (py "/etc/passwd").
Proof.
  destruct (url2path_escaped_slash_restarts (py "files") (py "etc/passwd"))
    as [H _]; [discriminate|].
  exact H.
Defined.

Lemma component_trimmed (q : pystr) : component_ok q -> trimmed_piece q.
Proof.
  intros Hq. split; [exact (proj1 Hq)|]. split.
  - now apply component_not_startswith.
  - exact (app_component_not_endswith [] q Hq).
Qed.

Lemma strip_trimmed_piece (q : pystr) : trimmed_piece q -> strip slash q = q.
Proof.
  intros [_ [Hs He]]. unfold strip. rewrite (lstrip_id slash q Hs).
  now apply rstrip_id.
Qed.

Lemma map_strip_trimmed (l : list pystr) :
  Forall trimmed_piece l -> map (strip slash) l = l.
Proof.
  induction 1 as [|q l Hq Hl IH]; [reflexivity|].
  cbn [map]. now rewrite strip_trimmed_piece, IH.
Qed.

Lemma drop_empty_trimmed (l : list pystr) :
  Forall trimmed_piece l -> drop_empty l = l.
Proof.
  induction 1 as [|q l Hq Hl IH]; [reflexivity|].
  cbn [drop_empty List.filter]. fold (drop_empty l).
  destruct Hq as [Hne _]. destruct q; [contradiction|].
  cbn [is_empty negb]. now rewrite IH.
Qed.

Lemma join_snoc (c : ascii) (l : list pystr) (p : pystr) :
  l <> [] -> join [c] (l ++ [p]) = join [c] l ++ c :: p.
Proof.
  induction l as [|x l IH]; intros Hne; [contradiction|].
  destruct l as [|y l]; [reflexivity|].
  cbn [app] in *. rewrite !(join_cons c x) by discriminate.
  rewrite IH by discriminate. now rewrite <- app_assoc.
Qed.

Lemma inner_pieces_snoc (l : list pystr) (y : pystr) :
  inner_pieces_nonempty (l ++ [y]) = forallb (fun q => negb (is_empty q)) l.
Proof.
  induction l as [|x l IH]; [reflexivity|].
  cbn [app forallb]. rewrite <- IH.
  destruct l as [|z l]; reflexivity.
Qed.

Lemma quoted_components (l : list pystr) :
  Forall (fun p => ~ In slash p) l ->
  forallb (fun q => negb (is_empty q)) l = true ->
  Forall trimmed_piece (map quote l).
Proof.
  induction 1 as [|p l Hp Hl IH]; intros Hn; [constructor|].
  cbn [forallb] in Hn. apply andb_prop in Hn. destruct Hn as [Hp' Hn].
  cbn [map]. constructor; [|now apply IH].
  apply component_trimmed. split.
  - intros E. pose proof (quote_is_empty p) as H. rewrite E in H.
    cbn [is_empty] in H. rewrite <- H in Hp'. discriminate.
  - now apply quote_no_slash.
Qed.

Lemma first_piece_app (l : list pystr) (z : pystr) :
  exists p0, first_piece (l ++ [z]) = inr p0 /\ In p0 (l ++ [z]).
Proof.
  destruct l as [|x l]; eexists; (split; [reflexivity|now left]).
Qed.

Lemma first_piece_app_l (l : list pystr) (z : pystr) :
  l <> [] -> exists p0, first_piece (l ++ [z]) = inr p0 /\ In p0 l.
Proof.
  destruct l as [|x l]; [contradiction|]. intros _.
  exists x. split; [reflexivity|now left].
Qed.

(** On a path whose components are not empty, a trailing separator
  apart, [path2url] is [url_escape]. *)
Lemma path2url_relative (path : pystr) :
  path <> [] ->
  inner_pieces_nonempty (split os_sep path) = true ->
  path2url path = inr (url_escape path).
Proof.
  intros Hp Hin. unfold path2url, url_escape.
  pose proof (split_pieces_sepfree slash path) as Hfree.
  pose proof (join_split slash path) as Hjs.
  change os_sep with slash in *.
  pose proof (split_not_nil slash path) as Hn.
  destruct (exists_last Hn) as [l [y Hl]].
  rewrite Hl in Hin, Hfree, Hjs |- *. clear Hn Hl.
  rewrite inner_pieces_snoc in Hin.
  apply Forall_app in Hfree. destruct Hfree as [Hfl Hfy].
  pose proof (Forall_inv Hfy) as Hy. cbv beta in Hy. clear Hfy.
  pose proof (quoted_components l Hfl Hin) as Hq.
  rewrite map_app. cbn [map]. rewrite keep_trailing_snoc, quote_is_empty.
  set (Q := map quote l) in *.
  destruct y as [|c y]; cbn [is_empty].
  - (* the path ends with a separator *)
    assert (Hlne : Q <> []).
    { unfold Q. destruct l; [|discriminate]. exfalso. apply Hp.
      now rewrite <- Hjs. }
    destruct (first_piece_app_l Q [slash] Hlne) as [p0 [Hf Hp0]].
    etransitivity;
      [exact (url_path_join_parts _ p0 [slash] Hf (last_piece_snoc Q [slash]))|].
    cbv zeta. rewrite map_app, drop_empty_app, (map_strip_trimmed Q Hq),
      (drop_empty_trimmed Q Hq).
    cbn [map drop_empty List.filter]. rewrite app_nil_r.
    assert (Hs : startswith p0 [slash] = false).
    { rewrite List.Forall_forall in Hq.
      now destruct (Hq p0 Hp0) as [_ [H _]]. }
    rewrite Hs. change (endswith [slash] [slash]) with true. cbv iota.
    pose proof (join_trimmed Q Hq Hlne) as Hj.
    pose proof (affixes_not_double_slash false true _ Hj) as Hd.
    cbv iota in Hd. rewrite Hd. cbn [app].
    rewrite join_snoc by exact Hlne. reflexivity.
  - (* the last component is not empty *)
    assert (Hz : trimmed_piece (quote (c :: y))).
    { apply component_trimmed. split.
      - intros E. pose proof (quote_is_empty (c :: y)) as H.
        rewrite E in H. discriminate.
      - now apply quote_no_slash. }
    assert (Hall : Forall trimmed_piece (Q ++ [quote (c :: y)])).
    { apply Forall_app. split; [exact Hq|]. now constructor. }
    destruct (first_piece_app Q (quote (c :: y))) as [p0 [Hf Hp0]].
    etransitivity;
      [exact (url_path_join_parts _ p0 _ Hf (last_piece_snoc Q _))|].
    cbv zeta. rewrite (map_strip_trimmed _ Hall), (drop_empty_trimmed _ Hall).
    rewrite List.Forall_forall in Hall.
    destruct (Hall p0 Hp0) as [_ [Hs _]]. rewrite Hs.
    destruct Hz as [_ [_ He]]. rewrite He.
    rewrite <- List.Forall_forall in Hall.
    assert (Hne : Q ++ [quote (c :: y)] <> []) by (destruct Q; discriminate).
    pose proof (join_trimmed _ Hall Hne) as Hj.
    pose proof (affixes_not_double_slash false false _ Hj) as Hd.
    cbv iota in Hd. rewrite Hd. cbn [app]. now rewrite app_nil_r.
Qed.

Lemma sepfree_not_startswith (b : pystr) :
  ~ In slash b -> startswith b [os_sep] = false.
Proof.
  destruct b as [|x b]; [reflexivity|]. intros H. cbn [startswith].
  destruct (Ascii.eqb x os_sep) eqn:E; [|reflexivity].
  apply Ascii.eqb_eq in E. subst. exfalso. apply H. now left.
Qed.

Lemma inner_pieces_cons (b : pystr) (rest : list pystr) :
  rest <> [] -> inner_pieces_nonempty (b :: rest) = true ->
  b <> [] /\ inner_pieces_nonempty rest = true.
Proof.
  destruct rest as [|r rest]; [contradiction|]. intros _ H.
  change (negb (is_empty b) && inner_pieces_nonempty (r :: rest) = true) in H.
  apply andb_prop in H. destruct H as [Hb Hr]. split; [|exact Hr].
  destruct b; [discriminate|discriminate].
Qed.

(** [os.path.join] on pieces without a slash, none of them empty but
  possibly the last: the pieces with a separator in front of each. *)
Lemma os_path_join_tail (rest : list pystr) :
  forall path,
    (rest <> [] -> path <> [] /\ endswith path [os_sep] = false) ->
    Forall (fun p => ~ In slash p) rest ->
    inner_pieces_nonempty rest = true ->
    os_path_join path rest = path ++ flat_map (cons slash) rest.
Proof.
  induction rest as [|b rest IH]; intros path Hpath Hfree Hin.
  - cbn. now rewrite app_nil_r.
  - destruct (Hpath ltac:(discriminate)) as [Hne He].
    pose proof (Forall_inv Hfree) as Hb. cbv beta in Hb.
    pose proof (Forall_inv_tail Hfree) as Hrest.
    rewrite os_path_join_cons, (sepfree_not_startswith b Hb), He.
    assert (Hem : is_empty path = false)
      by (destruct path; [contradiction|reflexivity]).
    rewrite Hem. cbn [orb].
    destruct rest as [|r rest].
    + cbn. now rewrite app_nil_r.
    + destruct (inner_pieces_cons b (r :: rest) ltac:(discriminate) Hin)
        as [Hbne Hin'].
      rewrite IH; [|intros _|exact Hrest|exact Hin'].
      * cbn [flat_map app]. now rewrite <- !app_assoc.
      * assert (Hok : component_ok b) by (split; assumption).
        split.
        -- destruct path; [contradiction|discriminate].
        -- rewrite app_assoc. now apply app_component_not_endswith.
Qed.

Lemma os_path_join_pieces (l : list pystr) :
  Forall (fun p => ~ In slash p) l ->
  inner_pieces_nonempty l = true ->
  os_path_join (hd [] l) (tl l) = join [slash] l.
Proof.
  intros Hfree Hin. destruct l as [|x rest]; [reflexivity|].
  cbn [hd tl]. rewrite join_flat_map.
  apply os_path_join_tail.
  - intros Hne. destruct (inner_pieces_cons x rest Hne Hin) as [Hx _].
    split; [exact Hx|].
    apply (app_component_not_endswith [] x).
    split; [exact Hx|exact (Forall_inv Hfree)].
  - exact (Forall_inv_tail Hfree).
  - destruct rest as [|r rest]; [reflexivity|].
    now destruct (inner_pieces_cons x (r :: rest) ltac:(discriminate) Hin).
Qed.

(** A relative path of characters below U+0100 whose components are not
  empty (it may end with a separator) comes back from the URL [path2url]
  makes of it. *)
Theorem url2path_path2url (path : pystr) :
  inner_pieces_nonempty (split os_sep path) = true ->
  exists url, path2url path = inr url /\ url2path url = Some path.
Proof.
  intros Hin. destruct path as [|c path].
  - exists [slash]. split; reflexivity.
  - exists (url_escape (c :: path)). split.
    + now apply path2url_relative.
    + unfold url2path. rewrite split_url_escape, unquote_all_quote.
      rewrite os_path_join_pieces;
        [|apply split_pieces_sepfree|exact Hin].
      now rewrite join_split.
Qed.

Lemma url2path_path2url_witness :
  exists url,
    path2url (py "my notes/2020 plan.ipynb") = inr url
    /\ url2path url = Some (py "my notes/2020 plan.ipynb").
Proof.
  apply (url2path_path2url (py "my notes/2020 plan.ipynb")). reflexivity.
Defined.

Example path2url_drops_leading_separator :
  path2url (py "/home/nb") = inr (py "home/nb").
Proof. reflexivity. Qed.

End UrlQuoteFacts.

(* ===================================================================== *)
(** * More properties of check_version *)
(* ===================================================================== *)

Section MoreVersionFacts.
Import Py Version NumericVersions.

Lemma component_split_digit (x : ascii) (s : pystr) :
  classify x = Digit ->
  component_split (x :: s) =
    match head_class s, component_split s with
    | Some k', t :: ts =>
        if same_class Digit k' then (x :: t) :: ts
        else [x] :: component_split s
    | _, _ => [x] :: component_split s
    end.
Proof. intros Hx. cbn [component_split]. now rewrite Hx. Qed.

Lemma component_split_run (d rest : pystr) :
  digit_run d -> head_class rest <> Some Digit ->
  component_split (d ++ rest) = d :: component_split rest.
Proof.
  intros [Hne Hd] Hrest. induction Hd as [|x d Hx Hd IH]; [contradiction|].
  cbn [app]. rewrite (component_split_digit x (d ++ rest) Hx).
  destruct d as [|y d].
  - cbn [app].
    destruct (head_class rest) as [k|] eqn:Ek; [|reflexivity].
    destruct (component_split rest) as [|t ts]; [reflexivity|].
    destruct k; try reflexivity. contradiction.
  - rewrite (IH ltac:(discriminate)).
    cbn [app head_class]. rewrite (Forall_inv Hd). reflexivity.
Qed.

Lemma convert_run (d : pystr) :
  digit_run d -> convert d = CInt (int_of_digits d).
Proof.
  intros [Hne Hd]. destruct d as [|c d]; [contradiction|].
  unfold convert. now rewrite (Forall_inv Hd).
Qed.

(** A dotted string of digit runs parses into its numbers. *)
Lemma parse_dotted (fields : list pystr) :
  Forall digit_run fields ->
  parse (dotted fields) = map (fun d => CInt (int_of_digits d)) fields.
Proof.
  unfold parse, dotted.
  induction 1 as [|d ds Hd Hds IH]; [reflexivity|].
  destruct ds as [|e ds].
  - cbn [PyStr.join map]. rewrite <- (app_nil_r d) at 1.
    rewrite component_split_run by (auto; discriminate).
    cbn [component_split map]. now rewrite convert_run.
  - rewrite join_cons by discriminate.
    rewrite component_split_run by (auto; discriminate).
    change (component_split ("."%char :: ?s)) with (component_split s).
    cbn [map]. rewrite IH, convert_run by exact Hd. reflexivity.
Qed.

Lemma dotted_nonempty (fields : list pystr) :
  fields <> [] -> Forall digit_run fields -> dotted fields <> [].
Proof.
  intros Hne Hf. destruct Hf as [|d ds [Hd _] _]; [contradiction|].
  unfold dotted. destruct d as [|c d]; [contradiction|].
  destruct ds; discriminate.
Qed.

Lemma LooseVersion_dotted (fields : list pystr) :
  fields <> [] -> Forall digit_run fields ->
  LooseVersion (dotted fields)
  = Some (map (fun d => CInt (int_of_digits d)) fields).
Proof.
  intros Hne Hf.
  rewrite (LooseVersion_nonempty _ (dotted_nonempty fields Hne Hf)).
  now rewrite parse_dotted.
Qed.

Lemma version_compare_numbers (ns ms : list N) :
  version_compare (map CInt ns) (map CInt ms) = Some (nums_compare ns ms).
Proof.
  revert ms. induction ns as [|n ns IH]; intros [|m ms]; try reflexivity.
  cbn [map version_compare comp_compare nums_compare].
  destruct (N.compare n m); [apply IH|reflexivity|reflexivity].
Qed.

(** Versions written as numbers with dots are compared number by number,
  by value: the fallback for a [TypeError] is never taken, and the result
  is [False] exactly when [v] comes before [check]. *)
Theorem check_version_numeric (v check : list pystr) :
  v <> [] -> check <> [] ->
  Forall digit_run v -> Forall digit_run check ->
  LooseVersion_ge (LooseVersion (dotted v)) (LooseVersion (dotted check))
    = Ok (match nums_compare (map int_of_digits v) (map int_of_digits check)
          with Lt => false | _ => true end)
  /\ check_version (dotted v) (dotted check)
     = Ok (match nums_compare (map int_of_digits v) (map int_of_digits check)
           with Lt => false | _ => true end).
Proof.
  intros Hv0 Hc0 Hv Hc. unfold check_version.
  rewrite !LooseVersion_dotted by assumption.
  pose proof (LooseVersion_ge_spec
                (map (fun d => CInt (int_of_digits d)) v)
                (map (fun d => CInt (int_of_digits d)) check)) as H.
  rewrite <- !(map_map int_of_digits CInt) in H |- *.
  rewrite version_compare_numbers in H.
  destruct (nums_compare (map int_of_digits v) (map int_of_digits check));
    rewrite H; split; reflexivity.
Qed.

Lemma check_version_numeric_witness :
  check_version (py "1.10.0") (py "1.9") = Ok true.
Proof.
  destruct (check_version_numeric [py "1"; py "10"; py "0"] [py "1"; py "9"])
    as [_ H]; try discriminate.
  - repeat constructor; discriminate.
  - repeat constructor; discriminate.
  - exact H.
Defined.

Lemma str_eqb_sym (a b : pystr) : str_eqb a b = str_eqb b a.
Proof.
  revert b. induction a as [|x a IH]; intros [|y b]; try reflexivity.
  cbn [str_eqb]. now rewrite (Ascii.eqb_sym x y), IH.
Qed.

Lemma str_ltb_asym (a b : pystr) : str_ltb a b = true -> str_ltb b a = false.
Proof.
  revert b. induction a as [|x a IH]; intros [|y b]; try reflexivity;
    try discriminate.
  cbn [str_ltb]. rewrite (Ascii.eqb_sym y x).
  destruct (Ascii.eqb x y); [apply IH|].
  intros H. apply Nat.ltb_lt in H. apply Nat.ltb_ge. lia.
Qed.

Lemma comp_compare_flip (x y : component) :
  (comp_compare x y = Some Eq -> comp_compare y x = Some Eq)
  /\ (comp_compare x y = Some Lt -> comp_compare y x = Some Gt).
Proof.
  destruct x as [a|a], y as [b|b]; cbn [comp_compare];
    try (split; discriminate).
  - rewrite (N.compare_antisym a b). destruct (N.compare a b); split;
      try discriminate; reflexivity.
  - rewrite !text_compare_spec.
    rewrite (str_eqb_sym b a). destruct (str_eqb a b); [split; auto; discriminate|].
    destruct (str_ltb a b) eqn:L; [|split; discriminate].
    rewrite (str_ltb_asym a b L). split; [discriminate|reflexivity].
Qed.

Lemma version_compare_flip (v w : list component) :
  version_compare v w = Some Lt -> version_compare w v = Some Gt.
Proof.
  revert w. induction v as [|x v IH]; intros [|y w]; cbn [version_compare];
    try discriminate; try reflexivity.
  destruct (comp_compare_flip x y) as [He Hl].
  destruct (comp_compare x y) as [[| |]|]; try discriminate.
  - rewrite (He eq_refl). apply IH.
  - now rewrite (Hl eq_refl).
Qed.

Lemma version_compare_refl (v : list component) :
  version_compare v v = Some Eq.
Proof.
  induction v as [|x v IH]; [reflexivity|]. cbn [version_compare].
  assert (H : comp_compare x x = Some Eq).
  { destruct x as [a|a]; cbn [comp_compare].
    - now rewrite N.compare_refl.
    - now rewrite text_compare_spec, str_eqb_refl. }
  now rewrite H.
Qed.

Lemma check_version_false (v check : pystr) :
  v <> [] -> check <> [] ->
  check_version v check = Ok false ->
  version_compare (parse v) (parse check) = Some Lt.
Proof.
  intros Hv Hc. unfold check_version.
  rewrite (LooseVersion_nonempty v Hv), (LooseVersion_nonempty check Hc).
  pose proof (LooseVersion_ge_spec (parse v) (parse check)) as H.
  destruct (version_compare (parse v) (parse check))
    as [[| |]|]; try (rewrite H; discriminate); [reflexivity|].
  destruct H as [e [-> He]]. unfold isinstance. rewrite He. discriminate.
Qed.

(** For version strings that are not empty: a version satisfies itself,
  and of two versions at least one satisfies the other, so a refusal one
  way round is an acceptance the other way round. *)
Theorem check_version_total (v check : pystr) :
  v <> [] -> check <> [] ->
  check_version v v = Ok true
  /\ (check_version v check = Ok false -> check_version check v = Ok true).
Proof.
  intros Hv Hc. split.
  - unfold check_version. rewrite (LooseVersion_nonempty v Hv).
    pose proof (LooseVersion_ge_spec (parse v) (parse v)) as H.
    rewrite version_compare_refl in H. now rewrite H.
  - intros Hf.
    apply (check_version_false v check Hv Hc), version_compare_flip in Hf.
    unfold check_version.
    rewrite (LooseVersion_nonempty v Hv), (LooseVersion_nonempty check Hc).
    pose proof (LooseVersion_ge_spec (parse check) (parse v)) as H.
    rewrite Hf in H. now rewrite H.
Qed.

Lemma check_version_total_witness :
  check_version (py "1.2.3") (py "1.2.3") = Ok true
  /\ check_version (py "1.2.3") (py "1.2") = Ok true.
Proof.
  split.
  - apply (check_version_total (py "1.2.3") (py "1.2")); discriminate.
  - apply (check_version_total (py "1.2") (py "1.2.3"));
      [discriminate|discriminate|reflexivity].
Defined.

End MoreVersionFacts.

(* ===================================================================== *)
(** * More properties of ensure_async and run_sync *)
(* ===================================================================== *)

Section MoreBridgeFacts.
Import Py Bridge BridgeSteps.
Local Open Scope string_scope.
Local Open Scope list_scope.

Lemma wrapped_tail (l : nat) (obj : pyobj) (w : world) :
  bind
    (try_except
       (bind (read_local "loop" (Some l))
          (fun l0 => bind (run_until_complete l0 obj) (fun r => ret (Some r))))
       RuntimeError
       (fun e =>
          if String.eqb (exc_str e) "This event loop is already running"
          then bind (asyncio_ensure_future obj) (fun r => ret (Some r))
          else ret None))
    (read_local "result") w
  = drive_on l obj w.
Proof.
  unfold drive_on. unfold bind at 1. unfold try_except.
  unfold bind at 1. cbn [read_local ret]. unfold bind at 1.
  destruct (run_until_complete l obj w) as [[r|e] w']; [reflexivity|].
  destruct (isinstance e RuntimeError); [|reflexivity].
  destruct (String.eqb (exc_str e) "This event loop is already running").
  - unfold bind. destruct (asyncio_ensure_future obj w') as [[r|e'] w''];
      reflexivity.
  - reflexivity.
Qed.

Lemma new_loop_step (w : world) :
  bind new_event_loop
    (fun l => bind (set_event_loop l) (fun _ => ret (Some l))) w
  = (Ok (Some (length (loops w))), with_new_loop w).
Proof. reflexivity. Qed.

Lemma run_sync_no_current_loop (obj : pyobj) (w : world) :
  isawaitable obj = true ->
  running_loop w = None -> current_loop w = None ->
  run_sync obj w = drive_on (length (loops w)) obj (with_new_loop w).
Proof.
  intros Ha Hr Hc. unfold run_sync, wrapped. rewrite Ha. cbn [negb].
  unfold bind at 1. unfold try_except_else.
  destruct (auto_loop w) eqn:Hau.
  - assert (Hg : get_event_loop w
                 = (Ok (length (loops w)), with_new_loop w)).
    { unfold get_event_loop, bind, get. rewrite Hr, Hc, Hau. reflexivity. }
    rewrite Hg. unfold bind at 1.
    assert (Hcl : is_closed (length (loops w)) (with_new_loop w)
                  = (Ok false, with_new_loop w)).
    { unfold is_closed, bind, get.
      cbn [with_new_loop loops set_current_loop set_loops].
      now rewrite list_lookup_middle. }
    rewrite Hcl. cbn [ret]. unfold bind at 1. cbn [ret].
    apply wrapped_tail.
  - assert (Hg : get_event_loop w
                 = (Raise (mk_exn RuntimeError
                             "There is no current event loop in thread."), w)).
    { unfold get_event_loop, bind, get. rewrite Hr, Hc, Hau. cbn.
      now rewrite Hc. }
    rewrite Hg. cbn [isinstance issubclass exc_type exc_class_eqb orb ret].
    unfold bind at 1. rewrite new_loop_step. apply wrapped_tail.
Qed.

Lemma run_sync_closed_current_loop (obj : pyobj) (w : world) (l : nat)
    (lp : event_loop) :
  isawaitable obj = true ->
  running_loop w = None -> current_loop w = Some l ->
  loops w !! l = Some lp -> lp_closed lp = true ->
  run_sync obj w = drive_on (length (loops w)) obj (with_new_loop w).
Proof.
  intros Ha Hr Hc Hl Hcl. unfold run_sync, wrapped. rewrite Ha. cbn [negb].
  unfold bind at 1. unfold try_except_else.
  rewrite (get_event_loop_current w l Hr Hc).
  unfold bind at 1. rewrite (is_closed_lookup w l lp Hl), Hcl. cbn [ret].
  unfold bind at 1. rewrite new_loop_step. apply wrapped_tail.
Qed.

(** Driving a computation leaves the event loops alone. *)
Lemma drive_coroutine_frame (c : nat) (w w' : world) (x : result pyobj) :
  drive_coroutine c w = (x, w') ->
  loops w' = loops w /\ current_loop w' = current_loop w
  /\ running_loop w' = running_loop w /\ futures w' = futures w.
Proof.
  unfold drive_coroutine. destruct (coros w !! c) as [co|].
  - destruct (co_awaited co); intros [= <- <-]; repeat split.
  - intros [= <- <-]. repeat split.
Qed.

Lemma await_frame (obj : pyobj) (w w' : world) (x : result pyobj) :
  await obj w = (x, w') ->
  loops w' = loops w /\ current_loop w' = current_loop w
  /\ running_loop w' = running_loop w.
Proof.
  destruct obj as [| | |c|f]; cbn [await]; try (intros [= <- <-]; now repeat split).
  - intros H. apply drive_coroutine_frame in H. tauto.
  - unfold wait_future. destruct (futures w !! f) as [[[c|n r]|r]|].
    + destruct (drive_coroutine c w) as [r w1] eqn:Hd.
      apply drive_coroutine_frame in Hd. intros [= <- <-]. cbn. tauto.
    + intros [= <- <-]. now repeat split.
    + intros [= <- <-]. now repeat split.
    + intros [= <- <-]. now repeat split.
Qed.

(** Driving an awaitable that resolves to [r] on an open loop that is not
  running: the result is [r], no loop is made and the current loop stays. *)
Lemma run_until_complete_resolves (l : nat) (lp : event_loop) (obj r : pyobj)
    (w : world) :
  running_loop w = None ->
  loops w !! l = Some lp -> lp_closed lp = false ->
  drivable_on w obj l ->
  resolves_to w obj r ->
  exists w',
    run_until_complete l obj w = (Ok r, w')
    /\ length (loops w') = length (loops w)
    /\ current_loop w' = current_loop w
    /\ (exists lp', loops w' !! l = Some lp' /\ lp_closed lp' = false)
    /\ is_completed w' obj = true.
Proof.
  intros Hr Hl Hc Hown Hres. unfold run_until_complete.
  unfold bind at 1. rewrite (is_closed_lookup w l lp Hl), Hc.
  unfold bind at 1. unfold get at 1. rewrite Hr.
  destruct obj as [| | |c|f]; try contradiction.
  - (* a coroutine: wrapped in a task, which is then waited for *)
    unfold bind. cbn [ensure_future_on].
    destruct (create_task_spec l c w lp Hl)
      as [w1 [Ht [Hco [Hex [Htu [Hfu [_ Hlo]]]]]]].
    rewrite Ht. cbn [await]. unfold wait_future.
    rewrite Hfu, list_lookup_middle by reflexivity.
    assert (Hfresh : fresh_coroutine_returning w1 c r).
    { destruct Hres as [co H]. exists co. now rewrite Hco. }
    destruct (drive_fresh_coroutine w1 c r Hfresh) as [w2 [Hd [Hdone _]]].
    rewrite Hd. pose proof (drive_coroutine_frame c w1 w2 _ Hd) as [F1 [F2 _]].
    eexists. split; [reflexivity|].
    cbn [finish snd loops current_loop set_futures set_turns is_completed coros].
    rewrite F1, F2. split; [|split; [|split]].
    + assert (Hlen : length (loops w1) = length (loops w)).
      { assert (E : loops w1
                    = alter (fun lp0 => mk_loop (lp_closed lp0)
                                          (lp_tasks lp0 ++ [length (futures w)]))
                        l (loops w)).
        { unfold create_task in Ht. now injection Ht as <-. }
        rewrite E. apply length_alter. }
      exact Hlen.
    + unfold create_task in Ht. now injection Ht as <-.
    + rewrite Hlo. eexists. split; [reflexivity|exact Hc].
    + exact Hdone.
  - (* a future of this loop: waited for as it is *)
    cbn [drivable_on] in Hown.
    unfold bind, get. cbn [ensure_future_on]. unfold bind, get.
    rewrite Hown. cbn [ret].
    destruct (await_resolves (PFuture f) r w Hres) as [w' [Hw Hdone]].
    rewrite Hw. exists w'. split; [reflexivity|].
    destruct (await_frame _ _ _ _ Hw) as [F1 [F2 _]].
    rewrite F1, F2. split; [reflexivity|]. split; [reflexivity|].
    split; [|exact Hdone]. now exists lp.
Qed.

(** Outside a running loop, with an open current loop, [run_sync] drives
  a computation that resolves to [r] to its end on that loop and returns
  [r], when the computation is a coroutine or a future that belongs to
  that loop: no loop is made and the current loop stays the current one. *)
Theorem run_sync_uses_current_loop (obj r : pyobj) (w : world) (l : nat)
    (lp : event_loop) :
  running_loop w = None -> current_loop w = Some l ->
  loops w !! l = Some lp -> lp_closed lp = false ->
  drivable_on w obj l ->
  resolves_to w obj r ->
  exists w',
    run_sync obj w = (Ok r, w')
    /\ length (loops w') = length (loops w)
    /\ current_loop w' = Some l
    /\ is_completed w' obj = true.
Proof.
  intros Hr Hc Hl Hcl Hown Hres.
  pose proof (resolves_to_awaitable w obj r Hres) as Ha.
  rewrite (run_sync_with_loop obj w l lp Ha
             (get_event_loop_current w l Hr Hc) Hl Hcl).
  destruct (run_until_complete_resolves l lp obj r w Hr Hl Hcl Hown Hres)
    as [w' [Hu [H1 [H2 [_ H3]]]]].
  rewrite Hu. exists w'. rewrite H2, Hc. auto.
Qed.

Lemma run_sync_uses_current_loop_witness :
  (exists w',
     run_sync (PCoro 0) (idle_world [mk_coroutine (Ok (PInt 42)) 1 false] [])
       = (Ok (PInt 42), w')
     /\ length (loops w') = 1
     /\ current_loop w' = Some 0
     /\ is_completed w' (PCoro 0) = true)
  /\ (exists w',
        run_sync (PFuture 0)
          (mk_world [] [Pending (FromOutside 4 (Ok (PInt 42)))]
             [mk_loop false [0]] (Some 0) false None [] 0)
        = (Ok (PInt 42), w')
        /\ length (loops w') = 1
        /\ current_loop w' = Some 0
        /\ is_completed w' (PFuture 0) = true).
Proof.
  split.
  - apply (run_sync_uses_current_loop (PCoro 0) (PInt 42)
             (idle_world [mk_coroutine (Ok (PInt 42)) 1 false] [])
             0 (mk_loop false [])); try reflexivity.
    eexists. split; [reflexivity|]. split; reflexivity.
  - apply (run_sync_uses_current_loop (PFuture 0) (PInt 42)
             (mk_world [] [Pending (FromOutside 4 (Ok (PInt 42)))]
                [mk_loop false [0]] (Some 0) false None [] 0)
             0 (mk_loop false [0])); reflexivity.
Defined.

(** The loop that [run_sync] has just made holds no future. *)
Lemma belongs_to_new_loop (w : world) (f : nat) :
  belongs_to (with_new_loop w) f (length (loops w)) = false.
Proof.
  unfold belongs_to. cbn [with_new_loop loops set_current_loop set_loops].
  now rewrite list_lookup_middle.
Qed.

(** A future cannot be driven on a loop made after it. *)
Lemma drive_on_new_loop_future (w : world) (f : nat) :
  running_loop w = None ->
  drive_on (length (loops w)) (PFuture f) (with_new_loop w)
  = (Raise different_loop, with_new_loop w).
Proof.
  intros Hr. unfold drive_on, run_until_complete.
  unfold bind at 1.
  assert (Hl : loops (with_new_loop w) !! length (loops w)
               = Some (mk_loop false [])).
  { cbn [with_new_loop loops set_current_loop set_loops].
    now rewrite list_lookup_middle. }
  rewrite (is_closed_lookup _ _ _ Hl). cbn [lp_closed].
  unfold bind at 1. unfold get at 1.
  assert (Hr' : running_loop (with_new_loop w) = None) by exact Hr.
  rewrite Hr'. unfold bind at 1. cbn [ensure_future_on].
  unfold bind, get. rewrite belongs_to_new_loop. reflexivity.
Qed.

(** Outside a running loop, when the thread has no current loop or its
  current loop is closed, [run_sync] makes exactly one new loop and leaves
  it as the current loop.  A coroutine is driven on the new loop and its
  result returned.  A future belongs to a loop made before, so driving it
  on the new loop is refused: [run_sync] raises the [ValueError] of
  [run_until_complete]. *)
Theorem run_sync_creates_loop (c : nat) (r : pyobj) (w : world) :
  running_loop w = None ->
  (current_loop w = None
   \/ exists l lp, current_loop w = Some l /\ loops w !! l = Some lp
                   /\ lp_closed lp = true) ->
  (fresh_coroutine_returning w c r ->
   exists w',
     run_sync (PCoro c) w = (Ok r, w')
     /\ length (loops w') = S (length (loops w))
     /\ current_loop w' = Some (length (loops w))
     /\ (exists lp, loops w' !! length (loops w) = Some lp
                    /\ lp_closed lp = false)
     /\ is_completed w' (PCoro c) = true)
  /\ (forall f,
        run_sync (PFuture f) w = (Raise different_loop, with_new_loop w)).
Proof.
  intros Hr Hcur.
  assert (Hrun : forall obj, isawaitable obj = true ->
            run_sync obj w
            = drive_on (length (loops w)) obj (with_new_loop w)).
  { intros obj Ha. destruct Hcur as [Hc|[l [lp [Hc [Hl Hcl]]]]].
    - now apply run_sync_no_current_loop.
    - now apply (run_sync_closed_current_loop obj w l lp). }
  split.
  - intros Hres. rewrite (Hrun (PCoro c) eq_refl). unfold drive_on.
    assert (Hl : loops (with_new_loop w) !! length (loops w)
                 = Some (mk_loop false [])).
    { cbn [with_new_loop loops set_current_loop set_loops].
      now rewrite list_lookup_middle. }
    destruct (run_until_complete_resolves (length (loops w))
                (mk_loop false []) (PCoro c) r (with_new_loop w)
                Hr Hl eq_refl I Hres)
      as [w' [Hu [H1 [H2 [H3 H4]]]]].
    rewrite Hu. exists w'. split; [reflexivity|]. split; [|split; [|split]].
    + rewrite H1. cbn [with_new_loop loops set_current_loop set_loops].
      rewrite length_app. cbn [length]. lia.
    + rewrite H2. reflexivity.
    + exact H3.
    + exact H4.
  - intros f. rewrite (Hrun (PFuture f) eq_refl).
    now apply drive_on_new_loop_future.
Qed.

Lemma run_sync_creates_loop_witness :
  (exists w',
     run_sync (PCoro 0)
       (mk_world [mk_coroutine (Ok (PInt 42)) 0 false] [] [mk_loop true []]
          (Some 0) false None [] 0)
     = (Ok (PInt 42), w')
     /\ length (loops w') = 2
     /\ current_loop w' = Some 1
     /\ (exists lp, loops w' !! 1 = Some lp /\ lp_closed lp = false)
     /\ is_completed w' (PCoro 0) = true)
  /\ run_sync (PFuture 0)
       (mk_world [] [Finished (Ok (PInt 42))] [mk_loop true [0]]
          (Some 0) false None [] 0)
     = (Raise different_loop,
        mk_world [] [Finished (Ok (PInt 42))]
          [mk_loop true [0]; mk_loop false []] (Some 1) false None [] 0).
Proof.
  split.
  - apply (run_sync_creates_loop 0 (PInt 42)
             (mk_world [mk_coroutine (Ok (PInt 42)) 0 false] []
                [mk_loop true []] (Some 0) false None [] 0)).
    + reflexivity.
    + right. exists 0, (mk_loop true []). repeat split.
    + eexists. split; [reflexivity|]. split; reflexivity.
  - apply (run_sync_creates_loop 0 PNone
             (mk_world [] [Finished (Ok (PInt 42))] [mk_loop true [0]]
                (Some 0) false None [] 0)).
    + reflexivity.
    + right. exists 0, (mk_loop true [0]). repeat split.
Defined.

(** An awaited computation that fails makes [ensure_async] fail with the
  same exception, in the same state, unless the exception is a
  [RuntimeError] that reads "cannot reuse already awaited coroutine". *)
Theorem ensure_async_reraises (obj : pyobj) (w w' : world) (e : exn) :
  isawaitable obj = true ->
  await obj w = (Raise e, w') ->
  isinstance e RuntimeError = false
  \/ exc_str e <> "cannot reuse already awaited coroutine" ->
  ensure_async obj w = (Raise e, w').
Proof.
  intros Ha Hw Hc. rewrite ensure_async_awaitable by exact Ha. rewrite Hw.
  destruct Hc as [-> | Hs]; [reflexivity|].
  apply String.eqb_neq in Hs. rewrite Hs. now rewrite andb_false_r.
Qed.

Lemma ensure_async_reraises_witness :
  ensure_async (PCoro 0)
    (idle_world [mk_coroutine (Raise (mk_exn RuntimeError "boom")) 0 false] [])
  = (Raise (mk_exn RuntimeError "boom"),
     mk_world [mk_coroutine (Raise (mk_exn RuntimeError "boom")) 0 true] []
       [mk_loop false []] (Some 0) false None [0] 0).
Proof.
  apply (ensure_async_reraises (PCoro 0)); [reflexivity|reflexivity|].
  right. discriminate.
Defined.

(** Outside a running loop, with an open current loop, a computation that
  fails with an exception that is not a [RuntimeError] makes [run_sync]
  fail with that exception. *)
Theorem run_sync_reraises_other (obj : pyobj) (w w' : world) (l : nat)
    (lp : event_loop) (e : exn) :
  isawaitable obj = true ->
  running_loop w = None -> current_loop w = Some l ->
  loops w !! l = Some lp -> lp_closed lp = false ->
  run_until_complete l obj w = (Raise e, w') ->
  isinstance e RuntimeError = false ->
  run_sync obj w = (Raise e, w').
Proof.
  intros Ha Hr Hc Hl Hcl Hu He.
  rewrite (run_sync_with_loop obj w l lp Ha
             (get_event_loop_current w l Hr Hc) Hl Hcl).
  now rewrite Hu, He.
Qed.

Lemma run_sync_reraises_other_witness :
  fst (run_sync (PCoro 0)
         (idle_world [mk_coroutine (Raise (mk_exn ValueError "bad")) 0 false] []))
  = Raise (mk_exn ValueError "bad").
Proof.
  erewrite (run_sync_reraises_other (PCoro 0) _ _ 0 (mk_loop false [])
              (mk_exn ValueError "bad")); reflexivity.
Defined.


End MoreBridgeFacts.

(* ===================================================================== *)
(** * More properties of the deprecated decorator *)
(* ===================================================================== *)

Section MoreDeprecationFacts.
Import Py Deprecation.
Local Open Scope string_scope.

Context {A B : Type}.

Lemma remove_first_length (item : wfilter) (l : list wfilter) :
  length (remove_first item l) <= length l.
Proof.
  induction l as [|x l IH]; [apply Nat.le_refl|]. cbn [remove_first].
  destruct (wfilter_eqb x item); cbn [length]; lia.
Qed.

Lemma state_after_warning (self : deprecated) (func : pyfunc A B) (a : A)
    (w : wstate) :
  behavior self = "warn" ->
  (forall x w0, snd (fn_call func x w0) = w0) ->
  snd (fn_call (deprecated_call self func) a w) = warned self func w.
Proof.
  intros Hb Hpure. cbn [deprecated_call fn_call].
  rewrite (wrapped_warn self func a w Hb). apply Hpure.
Qed.

(** In 'warn' mode, around a function that leaves the warnings module
  alone: the [always] filter for [DeprecationWarning] is first in the
  filter list after a call, a call adds at most one filter, and a second
  call leaves the filter list as the first one left it. *)
Theorem deprecated_filter_list_stable (self : deprecated) (func : pyfunc A B)
    (a1 a2 : A) (w : wstate) :
  behavior self = "warn" ->
  (forall x w0, snd (fn_call func x w0) = w0) ->
  let w1 := snd (fn_call (deprecated_call self func) a1 w) in
  let w2 := snd (fn_call (deprecated_call self func) a2 w1) in
  hd_error (filters w1) = Some (mk_filter Always DeprecationWarning 0)
  /\ length (filters w1) <= S (length (filters w))
  /\ filters w2 = filters w1.
Proof.
  intros Hb Hpure w1 w2. subst w1 w2.
  rewrite !(state_after_warning self func _ _ Hb Hpure).
  split; [reflexivity|]. split.
  - cbn [warned filters length].
    pose proof (remove_first_length (mk_filter Always DeprecationWarning 0)
                  (filters w)). lia.
  - reflexivity.
Qed.

(** In 'warn' mode the wrapper changes the policy for everybody: after a
  call, every [DeprecationWarning] given to [warn_explicit] is shown,
  whatever filters were in place before the call, also one that ignored
  such warnings or turned them into errors. *)
Theorem deprecated_call_overrides_filters (self : deprecated)
    (func : pyfunc A B) (a : A) (w : wstate)
    (text filename : string) (lineno : Z) :
  behavior self = "warn" ->
  (forall x w0, snd (fn_call func x w0) = w0) ->
  let w1 := snd (fn_call (deprecated_call self func) a w) in
  warn_explicit text DeprecationWarning filename lineno w1
  = (Ok tt,
     mk_wstate (filters w1) (defaultaction w1) (onceregistry w1)
       (shown w1 ++ [mk_shown text DeprecationWarning filename lineno])).
Proof.
  intros Hb Hpure w1. subst w1.
  rewrite (state_after_warning self func _ _ Hb Hpure). reflexivity.
Qed.

(** A [behavior] that is neither 'warn' nor 'raise' switches the
  decorator off: the wrapper does what the function does, and nothing
  else. *)
Theorem deprecated_unknown_behavior (self : deprecated) (func : pyfunc A B)
    (args : A) (w : wstate) :
  behavior self <> "warn" -> behavior self <> "raise" ->
  fn_call (deprecated_call self func) args w = fn_call func args w.
Proof.
  intros Hw Hr. cbn [deprecated_call fn_call]. unfold wrapped.
  apply String.eqb_neq in Hw, Hr. rewrite Hw, Hr. reflexivity.
Qed.

End MoreDeprecationFacts.

Section MoreDeprecationExamples.
Import Py Deprecation.
Local Open Scope string_scope.

Lemma deprecated_filter_list_stable_witness :
  filters (snd (fn_call marked_old_function 2%Z
                  (snd (fn_call marked_old_function 1%Z fresh_warnings))))
  = filters (snd (fn_call marked_old_function 1%Z fresh_warnings)).
Proof.
  apply (deprecated_filter_list_stable
           (deprecated_init (Some "new") None (Some "2.0")) old_function
           1%Z 2%Z fresh_warnings); reflexivity.
Defined.

Lemma deprecated_call_overrides_filters_witness :
  let w := mk_wstate [mk_filter Error DeprecationWarning 0] Default [] [] in
  warn_explicit "other" DeprecationWarning "x.py" 3 w
    = (Raise (mk_exn DeprecationWarning "other"), w)
  /\ fst (warn_explicit "other" DeprecationWarning "x.py" 3
            (snd (fn_call marked_old_function 1%Z w))) = Ok tt.
Proof.
  split; [reflexivity|].
  exact (f_equal fst
           (deprecated_call_overrides_filters
              (deprecated_init (Some "new") None (Some "2.0")) old_function
              1%Z (mk_wstate [mk_filter Error DeprecationWarning 0] Default [] [])
              "other" "x.py" 3 eq_refl (fun _ _ => eq_refl))).
Defined.

Lemma deprecated_unknown_behavior_witness :
  fn_call (deprecated_call (deprecated_init None (Some "Warn") None)
             old_function) 5%Z fresh_warnings
  = (Ok 5%Z, fresh_warnings).
Proof.
  apply (deprecated_unknown_behavior
           (deprecated_init None (Some "Warn") None) old_function 5%Z
           fresh_warnings); discriminate.
Defined.

End MoreDeprecationExamples.
